(** * adaptive-swe-agent: patch validator and repository manager

    A shallow embedding of [repository-manager/patch_validator.py] and
    [repository-manager/repo_manager.py], and the properties of the
    diff repair engine and of the repository life cycle proved (or
    refuted) on it.

    Modelling conventions.
    - A Python [str] is a [string]: the sequence of the bytes of its UTF-8
      encoding.  [startswith], [endswith], [in], [replace], [split] and
      [join] with ASCII arguments commute with that encoding.  The regular
      expression class [\d] and [int()] are modelled on the ASCII digits:
      the theorems that depend on them are stated for ASCII texts.
      [base_commit[:8]] is the first eight bytes: commit hashes are
      ASCII.
    - A Python [int] is an [N]: the integers read from a header are
      non-negative and unbounded.  [int()] raises [ValueError] on a
      string of more than 4300 digits, the limit the interpreter starts
      with.
    - [subprocess.run], the file system, the encodings and [git] are an
      oracle over an abstract world; every function of
      [RepositoryManager] threads the world and a log of the commands it
      ran. *)

From Equations Require Import Equations.
From Stdlib Require Import String Ascii List Bool Arith NArith ZArith Lia.
From Stdlib Require Import DecimalString DecimalN.
From Stdlib Require DecimalFacts.
Import ListNotations.

Set Implicit Arguments.

(** ** Python string primitives *)

Module PyStr.

Definition CR : ascii := "013"%char.
Definition LF : ascii := "010"%char.

(** The one-character strings ["\r"], ["\n"] and the pair ["\r\n"]. *)
Definition cr : string := String CR EmptyString.
Definition nl : string := String LF EmptyString.
Definition crlf : string := String CR (String LF EmptyString).

(** [s.startswith(p)] *)
Definition startswith (s p : string) : bool := String.prefix p s.

(** [needle in hay] *)
Fixpoint contains (needle hay : string) : bool :=
  String.prefix needle hay ||
  match hay with
  | EmptyString => false
  | String _ rest => contains needle rest
  end.

(** [s.endswith(suf)] *)
Definition endswith (s suf : string) : bool :=
  (String.length suf <=? String.length s) &&
  String.eqb (substring (String.length s - String.length suf)
                        (String.length suf) s) suf.

(** [s.replace('\r\n', '\n')]: one left-to-right pass over
    non-overlapping occurrences. *)
Fixpoint replace_crlf (s : string) : string :=
  match s with
  | EmptyString => EmptyString
  | String c rest =>
      match rest with
      | String d rest' =>
          if Ascii.eqb c CR && Ascii.eqb d LF
          then String LF (replace_crlf rest')
          else String c (replace_crlf rest)
      | EmptyString => String c EmptyString
      end
  end.

(** [s.replace('\r', '\n')] *)
Fixpoint replace_cr (s : string) : string :=
  match s with
  | EmptyString => EmptyString
  | String c rest =>
      String (if Ascii.eqb c CR then LF else c) (replace_cr rest)
  end.

(** [s.split('\n')]: never empty, [''.split('\n') = ['']]. *)
Fixpoint split_lines (s : string) : list string :=
  match s with
  | EmptyString => [EmptyString]
  | String c rest =>
      if Ascii.eqb c LF then EmptyString :: split_lines rest
      else match split_lines rest with
           | [] => [String c EmptyString]
           | l :: ls => String c l :: ls
           end
  end.

(** ['\n'.join(lines)] *)
Fixpoint join_lines (lines : list string) : string :=
  match lines with
  | [] => EmptyString
  | [l] => l
  | l :: ls => (l ++ nl ++ join_lines ls)%string
  end.

(** ASCII decimal digits, the model of [\d]. *)
Definition is_digit (c : ascii) : bool :=
  let n := nat_of_ascii c in (48 <=? n) && (n <=? 57).

(** The longest run of digits at the head of [s] and what follows it:
    a greedy [\d*]. *)
Fixpoint span_digits (s : string) : string * string :=
  match s with
  | EmptyString => (EmptyString, EmptyString)
  | String c rest =>
      if is_digit c
      then let (ds, tl) := span_digits rest in (String c ds, tl)
      else (EmptyString, s)
  end.

(** The number a string of decimal digits denotes. *)
Definition digits_value (ds : string) : N :=
  match NilEmpty.uint_of_string ds with
  | Some d => N.of_uint d
  | None => 0%N
  end.

(** What a call that may raise [ValueError] gives. *)
Inductive fallible (A : Type) : Type :=
| Ok (a : A)
| ValueError.
Arguments Ok {A} a.
Arguments ValueError {A}.

(** [sys.get_int_max_str_digits()], as the interpreter starts with. *)
Definition int_max_str_digits : nat := 4300.

(** [int(ds)] for a string of decimal digits, which is what the groups
    [\d+] hold: a string of more than 4300 digits, leading zeros
    counted, raises [ValueError]. *)
Definition int_of_digits (ds : string) : fallible N :=
  if (String.length ds <=? int_max_str_digits)%nat
  then Ok (digits_value ds) else ValueError.

(** [str(n)], as an f-string field prints it. *)
Definition str_of_int (n : N) : string :=
  NilEmpty.string_of_uint (N.to_uint n).

(** [s] without its leading [p], when it has it. *)
Fixpoint strip_prefix (p s : string) : option string :=
  match p with
  | EmptyString => Some s
  | String a p' =>
      match s with
      | String b s' => if Ascii.eqb a b then strip_prefix p' s' else None
      | EmptyString => None
      end
  end.

(** What [.*] consumes: everything up to the first line feed. *)
Fixpoint until_lf (s : string) : string :=
  match s with
  | EmptyString => EmptyString
  | String c rest => if Ascii.eqb c LF then EmptyString
                     else String c (until_lf rest)
  end.

End PyStr.

(** ** [PatchValidator] *)

Module PatchValidator.
Import PyStr.
Local Open Scope string_scope.

(** *** [validate_patch] *)

Record validation := {
  valid : bool;
  issues : list string;
  has_diff_header : bool;
  has_hunks : bool
}.

Definition issue_header : string := "Missing 'diff --git' header".
Definition issue_markers : string := "Missing file markers (--- / +++)".
Definition issue_hunks : string := "No hunks found (missing @@)".
Definition issue_crlf : string := "Contains CRLF line endings (should be LF)".

(** [issues.append(msg)] guarded by [if cond]. *)
Definition append_if (cond : bool) (msg : string) (acc : list string) :=
  if cond then (acc ++ [msg])%list else acc.

Definition validate_patch (patch : string) : validation :=
  let issues0 : list string := [] in
  let has_diff_header := startswith patch "diff --git" in
  let issues1 := append_if (negb has_diff_header) issue_header issues0 in
  let has_file_markers := contains "---" patch && contains "+++" patch in
  let issues2 := append_if (negb has_file_markers) issue_markers issues1 in
  let has_hunks := contains "@@" patch in
  let issues3 := append_if (negb has_hunks) issue_hunks issues2 in
  let has_crlf := contains crlf patch in
  let issues4 := append_if has_crlf issue_crlf issues3 in
  {| valid := Nat.eqb (List.length issues4) 0;
     issues := issues4;
     has_diff_header := has_diff_header;
     has_hunks := has_hunks |}.

(** *** The hunk header pattern

    The pattern [re.match] is given in [_repair_hunk], its five groups
    written here between angle brackets:
    [@@ -<\d+>,?<\d*> \+<\d+>,?<\d*> @@<.*>].
    Every quantifier is greedy and what follows a run of digits is never a
    digit, so the first match the backtracking engine finds takes each
    run of digits whole: the pattern is read left to right without
    backtracking.  The pattern of [repair_patch] is the same without the
    final group, and matches the same strings. *)

Record hunk_groups := {
  group1 : string;   (* old start *)
  group2 : string;   (* old count, may be empty *)
  group3 : string;   (* new start *)
  group4 : string;   (* new count, may be empty *)
  group5 : string    (* text after the closing @@ *)
}.

(** [,?] *)
Definition opt_comma (s : string) : string :=
  match s with
  | String c rest => if Ascii.eqb c ","%char then rest else s
  | EmptyString => s
  end.

Definition is_empty (s : string) : bool :=
  match s with EmptyString => true | _ => false end.

Definition hunk_header_match (line : string) : option hunk_groups :=
  match strip_prefix "@@ -" line with
  | None => None
  | Some s0 =>
      let (g1, s1) := span_digits s0 in
      if is_empty g1 then None else
      let (g2, s2) := span_digits (opt_comma s1) in
      match strip_prefix " +" s2 with
      | None => None
      | Some s3 =>
          let (g3, s4) := span_digits s3 in
          if is_empty g3 then None else
          let (g4, s5) := span_digits (opt_comma s4) in
          match strip_prefix " @@" s5 with
          | None => None
          | Some s6 =>
              Some {| group1 := g1; group2 := g2; group3 := g3;
                      group4 := g4; group5 := until_lf s6 |}
          end
      end
  end.

(** *** [_repair_hunk] *)

(** One turn of the counting loop over the body. *)
Definition count_line (counts : N * N) (line : string) : N * N :=
  let (old_count, new_count) := counts in
  match line with
  | EmptyString => counts                       (* empty line: continue *)
  | String first_char _ =>
      if Ascii.eqb first_char "-"%char then (old_count + 1, new_count)%N
      else if Ascii.eqb first_char "+"%char then (old_count, new_count + 1)%N
      else if Ascii.eqb first_char " "%char
           then (old_count + 1, new_count + 1)%N
      else counts
  end.

Definition count_lines (body_lines : list string) : N * N :=
  fold_left count_line body_lines (0, 0)%N.

(** The f-string that rebuilds the header. *)
Definition format_header (old_start old_count new_start new_count : N)
    (context : string) : string :=
  "@@ -" ++ str_of_int old_start ++ "," ++ str_of_int old_count ++
  " +" ++ str_of_int new_start ++ "," ++ str_of_int new_count ++
  " @@" ++ context.

(** The second loop: every line but the single space is kept. *)
Definition clean_body (body_lines : list string) : list string :=
  filter (fun line => negb (String.eqb line " ")) body_lines.

Definition repair_hunk (hunk_lines : list string)
  : fallible (list string) :=
  match hunk_lines with
  | [] => Ok hunk_lines
  | header :: body_lines =>
      match hunk_header_match header with
      | None => Ok hunk_lines
      | Some m =>
          match int_of_digits (group1 m) with
          | ValueError => ValueError
          | Ok old_start =>
          match int_of_digits (group3 m) with
          | ValueError => ValueError
          | Ok new_start =>
              let context := group5 m in
              let (old_count, new_count) := count_lines body_lines in
              let new_header :=
                format_header old_start old_count new_start new_count
                  context in
              Ok (new_header :: clean_body body_lines)
          end
          end
      end
  end.

(** *** [repair_patch] *)

(** The inner [while] stops at the first line that starts with [@@] or
    with [diff --git]. *)
Definition in_hunk (line : string) : bool :=
  negb (startswith line "@@") && negb (startswith line "diff --git").

Fixpoint hunk_body (lines : list string) : list string :=
  match lines with
  | [] => []
  | l :: ls => if in_hunk l then l :: hunk_body ls else []
  end.

Fixpoint after_hunk (lines : list string) : list string :=
  match lines with
  | [] => []
  | l :: ls => if in_hunk l then after_hunk ls else lines
  end.

Lemma after_hunk_length (lines : list string) :
  List.length (after_hunk lines) <= List.length lines.
Proof.
  induction lines as [|l ls IH]; simpl; [lia|].
  destruct (in_hunk l); simpl; lia.
Qed.

(** [repaired_lines.append] and [repaired_lines.extend], before the rest
    of the loop. *)
Definition extend (done : list string) (rest : fallible (list string))
  : fallible (list string) :=
  match rest with
  | Ok lines => Ok (done ++ lines)%list
  | ValueError => ValueError
  end.

(** The outer [while i < len(lines)] loop, on the lines from [i] on; its
    result is what the loop appends to [repaired_lines], unless
    [_repair_hunk] raises. *)
Equations? repair_lines (lines : list string) : fallible (list string)
  by wf (List.length lines) lt :=
  repair_lines [] := Ok [];
  repair_lines (line :: rest) with startswith line "@@" => {
    | false := extend [line] (repair_lines rest);
    | true with hunk_header_match line => {
        | None := extend [line] (repair_lines rest);
        | Some _ with repair_hunk (line :: hunk_body rest) => {
            | ValueError := ValueError;
            | Ok hunk := extend hunk (repair_lines (after_hunk rest)) } } }.
Proof.
  all: simpl; try lia.
  pose proof (after_hunk_length rest). lia.
Qed.

(** ["Ensure ends with newline"] *)
Definition ensure_newline (patch : string) : string :=
  if endswith patch nl then patch else patch ++ nl.

Definition repair_patch (patch : string) : fallible string :=
  let patch := replace_crlf patch in
  let patch := ensure_newline patch in
  let lines := split_lines patch in
  match repair_lines lines with
  | Ok repaired_lines => Ok (join_lines repaired_lines)
  | ValueError => ValueError
  end.

End PatchValidator.

(** ** What the repair returns

    The text, the lines and the hunk that [repair_patch], its loop and
    [_repair_hunk] return when no [int()] raises, as functions of the
    input alone.  [PatchValidatorSpec] proves that the functions of
    [PatchValidator] return these values on every input on which they
    return, and says on which they do. *)

Module RepairValue.
Import PyStr PatchValidator.
Local Open Scope string_scope.

Definition repaired_hunk (hunk_lines : list string) : list string :=
  match hunk_lines with
  | [] => hunk_lines
  | header :: body_lines =>
      match hunk_header_match header with
      | None => hunk_lines
      | Some m =>
          let old_start := digits_value (group1 m) in
          let new_start := digits_value (group3 m) in
          let context := group5 m in
          let (old_count, new_count) := count_lines body_lines in
          let new_header :=
            format_header old_start old_count new_start new_count context in
          new_header :: clean_body body_lines
      end
  end.

(** The outer [while i < len(lines)] loop, on the lines from [i] on; its
    result is what the loop appends to [repaired_lines]. *)
Equations? repaired_lines (lines : list string) : list string
  by wf (List.length lines) lt :=
  repaired_lines [] := [];
  repaired_lines (line :: rest) with startswith line "@@" => {
    | false := line :: repaired_lines rest;
    | true with hunk_header_match line => {
        | None := line :: repaired_lines rest;
        | Some _ :=
            (repaired_hunk (line :: hunk_body rest)
               ++ repaired_lines (after_hunk rest))%list } }.
Proof.
  all: simpl; try lia.
  pose proof (after_hunk_length rest). lia.
Qed.

Definition repaired_patch (patch : string) : string :=
  let patch := replace_crlf patch in
  let patch := ensure_newline patch in
  let lines := split_lines patch in
  join_lines (repaired_lines lines).

End RepairValue.

(** ** The data model of the specification, and the patches of the
    scenarios *)

Module DiffModel.
Import PyStr PatchValidator RepairValue.
Local Open Scope string_scope.

(** A text given by its lines: the lines joined by ["\n"]. *)
Definition text (lines : list string) : string := join_lines lines.

(** The four checks, each read off the patch alone. *)
Definition check_header (patch : string) : list string :=
  if startswith patch "diff --git" then [] else ["Missing 'diff --git' header"].

Definition check_markers (patch : string) : list string :=
  if contains "---" patch && contains "+++" patch then []
  else ["Missing file markers (--- / +++)"].

Definition check_hunks (patch : string) : list string :=
  if contains "@@" patch then [] else ["No hunks found (missing @@)"].

Definition check_crlf (patch : string) : list string :=
  if contains crlf patch then ["Contains CRLF line endings (should be LF)"]
  else [].

(** The second scenario of the specification. *)
Definition headerless_patch : string :=
  text ["--- a/f"; "+++ b/f"; "@@ -1,1 +1,1 @@"; "-a"; "+b"].

(** "Exactly one trailing LF": the text ends with a line feed and not
    with two. *)
Definition ends_with_one_lf (s : string) : bool :=
  endswith s nl && negb (endswith s (nl ++ nl)).

(** A text that already ends with an empty line. *)
Definition blank_tail_patch : string := text ["a"; ""; ""].

(** The lines of a hunk body by their first character. *)
Definition first_char_is (c : ascii) (line : string) : bool :=
  match line with
  | String a _ => Ascii.eqb a c
  | EmptyString => false
  end.

Definition is_context := first_char_is " "%char.
Definition is_removed := first_char_is "-"%char.
Definition is_added := first_char_is "+"%char.

(** Context + Removed, and Context + Added. *)
Definition old_lines (body : list string) : N :=
  N.of_nat (List.length (filter (fun l => is_context l || is_removed l) body)).

Definition new_lines (body : list string) : N :=
  N.of_nat (List.length (filter (fun l => is_context l || is_added l) body)).

(** The counts a header declares: groups 2 and 4 of the pattern, where a
    count left out stands for 1. *)
Definition count_of_group (g : string) : N :=
  if is_empty g then 1%N else digits_value g.

Definition declared_counts (header : string) : option (N * N) :=
  match hunk_header_match header with
  | Some m => Some (count_of_group (group2 m), count_of_group (group4 m))
  | None => None
  end.

(** The hunks of a text: every line that matches the header pattern,
    with the lines after it up to the next [@@] or [diff --git] line.  No
    line of a body starts with [@@], so scanning on from the line after
    the header finds the same hunks as jumping over the body. *)
Fixpoint hunks (lines : list string) : list (string * list string) :=
  match lines with
  | [] => []
  | line :: rest =>
      match hunk_header_match line with
      | Some _ => (line, hunk_body rest) :: hunks rest
      | None => hunks rest
      end
  end.

Definition hunk_consistent (h : string * list string) : bool :=
  match declared_counts (fst h) with
  | Some (o, n) => N.eqb o (old_lines (snd h)) && N.eqb n (new_lines (snd h))
  | None => true
  end.

(** The count invariant on a text: every hunk declares the counts of its
    body. *)
Definition count_invariant (patch : string) : bool :=
  forallb hunk_consistent (hunks (split_lines patch)).

(** A well-formed patch for a file with an empty second line: the
    context line of an empty source line is a single space. *)
Definition blank_context_patch : string :=
  text ["diff --git a/f b/f";
        "--- a/f";
        "+++ b/f";
        "@@ -1,3 +1,3 @@";
        " a";
        " ";
        "-b";
        "+c";
        ""].

(** A line that ends with CR CR LF. *)
Definition double_cr_patch : string :=
  "diff --git a/f b/f" ++ cr ++ crlf.

Definition starts_with_digit (s : string) : bool :=
  match s with
  | String c _ => is_digit c
  | EmptyString => false
  end.

(** The text ends with a carriage return. *)
Fixpoint ends_with_cr (s : string) : bool :=
  match s with
  | EmptyString => false
  | String c rest =>
      match rest with
      | EmptyString => Ascii.eqb c CR
      | String _ _ => ends_with_cr rest
      end
  end.

(** A line holds no line feed. *)
Definition lf_free (line : string) : Prop := until_lf line = line.

(** No line is the single space. *)
Definition no_blank_context (lines : list string) : Prop :=
  Forall (fun line => String.eqb line " " = false) lines.

(** The lines the repair loop works on. *)
Definition normalised_lines (d : string) : list string :=
  split_lines (ensure_newline (replace_crlf d)).

(** What follows a hunk is nothing or begins with a boundary line. *)
Definition at_boundary (lines : list string) : Prop :=
  match lines with
  | [] => True
  | l :: _ => in_hunk l = false
  end.

Definition starts_with_lf (s : string) : bool :=
  match s with
  | String b _ => Ascii.eqb b LF
  | EmptyString => false
  end.

(** A line that is free of line feeds and does not end with CR. *)
Definition plain_end (line : string) : Prop :=
  lf_free line /\ ends_with_cr line = false.

(** [s.isascii()] *)
Definition is_ascii_char (c : ascii) : bool := (nat_of_ascii c <? 128)%nat.

Fixpoint is_ascii (s : string) : bool :=
  match s with
  | EmptyString => true
  | String c rest => is_ascii_char c && is_ascii rest
  end.

(** A line that [int()] accepts if the header pattern matches it: neither
    start number has more digits than the interpreter converts. *)
Definition header_within_limit (line : string) : bool :=
  match hunk_header_match line with
  | Some m =>
      (String.length (group1 m) <=? int_max_str_digits)%nat
      && (String.length (group3 m) <=? int_max_str_digits)%nat
  | None => true
  end.

Definition within_limit (lines : list string) : bool :=
  forallb header_within_limit lines.

(** [k] line feeds. *)
Fixpoint lfs (k : nat) : string :=
  match k with
  | 0 => EmptyString
  | S k' => lfs k' ++ nl
  end.

(** [n] times the digit 1, and a hunk whose old start number has 4301
    digits. *)
Fixpoint ones (n : nat) : string :=
  match n with
  | 0 => EmptyString
  | S n' => String "1"%char (ones n')
  end.

Definition long_header_patch : string :=
  text ["diff --git a/f b/f"; "--- a/f"; "+++ b/f";
        "@@ -" ++ ones 4301 ++ ",1 +1,1 @@"; "-a"; "+b"].

(** A well-formed patch with two hunks, a count too high, a count left
    out and CRLF line ends, and no line that is a single space. *)
Definition two_hunk_crlf_patch : string :=
  text ["diff --git a/f b/f" ++ cr; "--- a/f" ++ cr; "+++ b/f" ++ cr;
        "@@ -1,5 +1,5 @@" ++ cr; " a" ++ cr; "-b" ++ cr; "+c" ++ cr;
        "@@ -9 +9 @@ tail" ++ cr; "+d"].

End DiffModel.

(** ** [RepositoryManager] *)

Module RepositoryManager.
Import PyStr.
Local Open Scope string_scope.

(** *** Paths ([os.path] is [posixpath]) *)

(** [repo.replace('/', '_')] *)
Fixpoint replace_slash (s : string) : string :=
  match s with
  | EmptyString => EmptyString
  | String c rest =>
      String (if Ascii.eqb c "/"%char then "_"%char else c) (replace_slash rest)
  end.

(** One turn of the loop of [os.path.join]. *)
Definition join_step (path b : string) : string :=
  if startswith b "/" then b
  else if PatchValidator.is_empty path || endswith path "/" then path ++ b
  else path ++ "/" ++ b.

Definition path_join (a : string) (p : list string) : string :=
  fold_left join_step p a.

(** [p[:p.rfind('/') + 1]] *)
Fixpoint upto_last_sep (p : string) : string :=
  match p with
  | EmptyString => EmptyString
  | String c rest =>
      if contains "/" rest then String c (upto_last_sep rest)
      else if Ascii.eqb c "/"%char then String c EmptyString
      else EmptyString
  end.

(** [head.rstrip('/')] *)
Fixpoint rstrip_sep (s : string) : string :=
  match s with
  | EmptyString => EmptyString
  | String c rest =>
      match rstrip_sep rest with
      | EmptyString => if Ascii.eqb c "/"%char then EmptyString
                       else String c EmptyString
      | r => String c r
      end
  end.

(** [os.path.dirname]: a head made of separators only is kept whole. *)
Definition dirname (p : string) : string :=
  let head := upto_last_sep p in
  if negb (PatchValidator.is_empty head)
     && negb (PatchValidator.is_empty (rstrip_sep head))
  then rstrip_sep head else head.

(** [base_commit[:8]] *)
Definition first8 (s : string) : string := substring 0 8 s.

(** The slot of [(repo, base_commit)] in the cache at [cache_dir]. *)
Definition repo_path (cache_dir repo base_commit : string) : string :=
  let repo_dir_name := replace_slash repo in
  path_join cache_dir [repo_dir_name; first8 base_commit].

(** *** Processes, the file system and exceptions *)

(** The arguments of a [subprocess.run] call that reach the child. *)
Record command := {
  argv : list string;
  cwd : option string;
  timeout : option N
}.

(** How the child ended: it exited, it was killed when the timeout
    expired, or it could not be started. *)
Inductive completion :=
| Exited (returncode : Z) (stdout stderr : string)
| TimedOut
| NotStarted.

Inductive exn :=
| CalledProcessError (cmd : list string) (returncode : Z) (stderr : string)
| TimeoutExpired (cmd : list string)
| OSError
| UnicodeDecodeError
| UnicodeEncodeError.

(** How [f.write(content)] and the [close] that ends the [with] block
    end: the text is written, or it has a character the encoding of the
    file does not have, or the file system refuses the bytes. *)
Inductive written :=
| Written
| EncodeFailed
| WriteFailed.

(** What the functions run against.  [run] is the effect of a child
    process on the world, [worktree w p] the content of the working tree
    at [p]; an operation that returns [None] raises [OSError].
    [named_temporary_file] creates an empty file and gives its name,
    [write_text] is what writing a text to it leaves.  [bytes_decode] is
    [bytes.decode()], and [locale_decode] the decoding text mode does with
    the encoding of the locale; [None] is [UnicodeDecodeError]. *)
Record OS := {
  World : Type;
  Tree : Type;
  run : World -> command -> World * completion;
  path_exists : World -> string -> bool;
  makedirs : World -> string -> option World;
  named_temporary_file : World -> string -> option (World * string);
  write_text : World -> string -> string -> World * written;
  remove : World -> string -> option World;
  bytes_decode : string -> option string;
  locale_decode : string -> option string;
  worktree : World -> string -> Tree
}.

Definition event : Type := command * completion.

Inductive outcome (A : Type) :=
| Return (a : A)
| Raise (e : exn).
Arguments Return {A} a.
Arguments Raise {A} e.

Section Monad.
Variable os : OS.

(** A computation changes the world, logs the commands it ran and
    returns or raises. *)
Definition M (A : Type) : Type :=
  World os -> World os * list event * outcome A.

Definition ret {A} (a : A) : M A := fun w => (w, [], Return a).

Definition raise {A} (e : exn) : M A := fun w => (w, [], Raise e).

Definition bind {A B} (m : M A) (f : A -> M B) : M B :=
  fun w =>
    match m w with
    | (w1, l1, Return a) =>
        match f a w1 with (w2, l2, r) => (w2, (l1 ++ l2)%list, r) end
    | (w1, l1, Raise e) => (w1, l1, Raise e)
    end.

(** [try: m except E: h], where [h e] is [None] when the clause does not
    catch [e]. *)
Definition try_except {A} (m : M A) (h : exn -> option (M A)) : M A :=
  fun w =>
    match m w with
    | (w1, l1, Raise e) =>
        match h e with
        | Some k =>
            match k w1 with (w2, l2, r) => (w2, (l1 ++ l2)%list, r) end
        | None => (w1, l1, Raise e)
        end
    | r => r
    end.

(** [try: m finally: c]: [c] runs on every exit of [m]; an exception of
    [c] replaces the outcome of [m]. *)
Definition try_finally {A} (m : M A) (c : M unit) : M A :=
  fun w =>
    match m w with
    | (w1, l1, r) =>
        match c w1 with
        | (w2, l2, Return _) => (w2, (l1 ++ l2)%list, r)
        | (w2, l2, Raise e) => (w2, (l1 ++ l2)%list, Raise e)
        end
    end.

End Monad.

Arguments ret {os A} a.
Arguments raise {os A} e.
Arguments bind {os A B} m f.
Arguments try_except {os A} m h.
Arguments try_finally {os A} m c.

Notation "x <- m ;; k" := (bind m (fun x => k))
  (at level 61, m at next level, right associativity).
Notation "m ;;; k" := (bind m (fun _ => k))
  (at level 61, right associativity).

Section Operations.
Variable os : OS.

(** What text mode makes of a captured stream: the bytes decoded with the
    encoding of the locale, then
    [.replace("\r\n", "\n").replace("\r", "\n")]. *)
Definition translate_newlines (s : string) : string :=
  replace_cr (replace_crlf s).

Definition text_of (raw : string) : option string :=
  match locale_decode os raw with
  | Some s => Some (translate_newlines s)
  | None => None
  end.

(** [subprocess.run(argv, cwd=..., timeout=..., check=..., text=...,
    capture_output=True)].  With [text=True] both captured streams are
    decoded when the child has ended, before its return code is looked
    at. *)
Record completed_process := {
  returncode_of : Z;
  stderr_of : string
}.

Definition completed (cmd : command) (check : bool) (rc : Z) (err : string)
  : outcome completed_process :=
  if check && negb (Z.eqb rc 0)
  then Raise (CalledProcessError (argv cmd) rc err)
  else Return {| returncode_of := rc; stderr_of := err |}.

Definition subprocess_run (cmd : command) (check text : bool)
  : M os completed_process :=
  fun w =>
    let (w', c) := run os w cmd in
    (w', [(cmd, c)],
     match c with
     | Exited rc out err =>
         if text then
           match text_of out, text_of err with
           | Some _, Some err' => completed cmd check rc err'
           | _, _ => Raise UnicodeDecodeError
           end
         else completed cmd check rc err
     | TimedOut => Raise (TimeoutExpired (argv cmd))
     | NotStarted => Raise OSError
     end).

Definition os_path_exists (p : string) : M os bool :=
  fun w => (w, [], Return (path_exists os w p)).

Definition os_makedirs (p : string) : M os unit :=
  fun w => match makedirs os w p with
           | Some w' => (w', [], Return tt)
           | None => (w, [], Raise OSError)
           end.

Definition os_remove (p : string) : M os unit :=
  fun w => match remove os w p with
           | Some w' => (w', [], Return tt)
           | None => (w, [], Raise OSError)
           end.

(** [with tempfile.NamedTemporaryFile(mode='w', suffix=..., delete=False)
    as f: f.write(content); patch_file = f.name].  The file exists from
    the first line on, and [delete=False] keeps it when the block is
    left, also by an exception of [f.write]. *)
Definition write_temporary_file (suffix content : string) : M os string :=
  fun w => match named_temporary_file os w suffix with
           | None => (w, [], Raise OSError)
           | Some (w1, name) =>
               match write_text os w1 name content with
               | (w2, Written) => (w2, [], Return name)
               | (w2, EncodeFailed) => (w2, [], Raise UnicodeEncodeError)
               | (w2, WriteFailed) => (w2, [], Raise OSError)
               end
           end.

(** *** [get_repo] *)

Definition git_clone_shallow (repo_url repo_path : string) : command :=
  {| argv := ["git"; "clone"; "--depth"; "1"; repo_url; repo_path];
     cwd := None; timeout := Some 300%N |}.

Definition git_clone_full (repo_url repo_path : string) : command :=
  {| argv := ["git"; "clone"; repo_url; repo_path];
     cwd := None; timeout := Some 600%N |}.

Definition git_checkout (base_commit repo_path : string) : command :=
  {| argv := ["git"; "checkout"; base_commit];
     cwd := Some repo_path; timeout := None |}.

Definition git_fetch_deeper (repo_path : string) : command :=
  {| argv := ["git"; "fetch"; "--depth"; "1000"];
     cwd := Some repo_path; timeout := None |}.

(** The first [try] block: a shallow clone and, when it times out, a full
    one. *)
Definition clone_phase (repo_url repo_path : string) : M os completed_process :=
  try_except
    (subprocess_run (git_clone_shallow repo_url repo_path) true false)
    (fun e => match e with
              | TimeoutExpired _ =>
                  Some (subprocess_run (git_clone_full repo_url repo_path) true false)
              | _ => None
              end).

(** The second [try] block: the checkout and, when it fails, a deeper
    fetch and the checkout again. *)
Definition checkout_phase (base_commit repo_path : string)
  : M os completed_process :=
  try_except
    (subprocess_run (git_checkout base_commit repo_path) true false)
    (fun e => match e with
              | CalledProcessError _ _ _ =>
                  Some (subprocess_run (git_fetch_deeper repo_path) true false ;;;
                        subprocess_run (git_checkout base_commit repo_path) true false)
              | _ => None
              end).

(** The two [print] calls write to standard output only and are left
    out. *)
Definition get_repo (cache_dir repo base_commit : string) : M os string :=
  let repo_path := repo_path cache_dir repo base_commit in
  cached <- os_path_exists repo_path ;;
  if (cached : bool) then ret repo_path else
  os_makedirs (dirname repo_path) ;;;
  let repo_url := "https://github.com/" ++ repo ++ ".git" in
  clone_phase repo_url repo_path ;;;
  checkout_phase base_commit repo_path ;;;
  ret repo_path.

(** *** [apply_patch] *)

Record apply_result := {
  success : bool;
  error : option string
}.

Definition git_apply_check (patch_file repo_path : string) : command :=
  {| argv := ["git"; "apply"; "--check"; patch_file];
     cwd := Some repo_path; timeout := None |}.

Definition git_apply (patch_file repo_path : string) : command :=
  {| argv := ["git"; "apply"; patch_file];
     cwd := Some repo_path; timeout := None |}.

(** [e.stderr] holds bytes here, so it has a [decode]: [bytes.decode()],
    which is UTF-8 whatever the locale is. *)
Definition decode_stderr (err : string) : M os string :=
  match bytes_decode os err with
  | Some s => ret s
  | None => raise UnicodeDecodeError
  end.

Definition apply_patch (repo_path patch : string) : M os apply_result :=
  patch_file <- write_temporary_file ".patch" patch ;;
  try_finally
    (try_except
       (result <- subprocess_run (git_apply_check patch_file repo_path) false true ;;
        if Z.eqb (returncode_of result) 0 then
          subprocess_run (git_apply patch_file repo_path) true false ;;;
          ret {| success := true; error := None |}
        else
          ret {| success := false; error := Some (stderr_of result) |})
       (fun e => match e with
                 | CalledProcessError _ _ err =>
                     Some (msg <- decode_stderr err ;;
                           ret {| success := false; error := Some msg |})
                 | _ => None
                 end))
    (present <- os_path_exists patch_file ;;
     if (present : bool) then os_remove patch_file else ret tt).

(** *** [reset_repo] *)

Definition git_reset_hard (repo_path : string) : command :=
  {| argv := ["git"; "reset"; "--hard"; "HEAD"];
     cwd := Some repo_path; timeout := None |}.

Definition git_clean (repo_path : string) : command :=
  {| argv := ["git"; "clean"; "-fdx"];
     cwd := Some repo_path; timeout := None |}.

Definition reset_repo (repo_path : string) : M os unit :=
  subprocess_run (git_reset_hard repo_path) true false ;;;
  subprocess_run (git_clean repo_path) true false ;;;
  ret tt.

End Operations.

End RepositoryManager.

(** ** What is assumed of [git] and of the temporary directory *)

Module GitAssumptions.
Import PyStr RepositoryManager.

(** What [subprocess.run(..., check=True)] raises for a completion. *)
Definition raised_by (cmd : command) (c : completion) : option exn :=
  match c with
  | Exited rc _ err =>
      if Z.eqb rc 0 then None else Some (CalledProcessError (argv cmd) rc err)
  | TimedOut => Some (TimeoutExpired (argv cmd))
  | NotStarted => Some OSError
  end.

Definition exited_ok (c : completion) : bool :=
  match c with
  | Exited rc _ _ => Z.eqb rc 0
  | _ => false
  end.

Definition is_git_clone (cmd : command) : bool :=
  match argv cmd with
  | g :: sub :: _ => String.eqb g "git" && String.eqb sub "clone"
  | _ => false
  end.

(** The clones a log shows as completed. *)
Definition clones_done (l : list event) : nat :=
  List.length (filter (fun ev => is_git_clone (fst ev) && exited_ok (snd ev)) l).

(** A [git clone] that exits with 0 has created its destination. *)
Definition clone_creates_slot (os : OS) : Prop :=
  forall w url dst w' out err,
    run os w (git_clone_shallow url dst) = (w', Exited 0 out err)
    \/ run os w (git_clone_full url dst) = (w', Exited 0 out err) ->
    path_exists os w' dst = true.

(** [git checkout] and [git fetch] do not delete the directory they run
    in. *)
Definition runs_in_slot (cmd : command) (p : string) : Prop :=
  (exists base_commit, cmd = git_checkout base_commit p)
  \/ cmd = git_fetch_deeper p.

Definition commands_keep_cwd (os : OS) : Prop :=
  forall w cmd p,
    runs_in_slot cmd p -> path_exists os w p = true ->
    path_exists os (fst (run os w cmd)) p = true.

(** The patch file is made in the temporary directory, outside the
    working tree at [p]: making it, writing to it and removing it leave
    the tree as it is. *)
Definition patch_file_outside (os : OS) (p : string) : Prop :=
  forall w suffix w1 f,
    named_temporary_file os w suffix = Some (w1, f) ->
    worktree os w1 p = worktree os w p
    /\ (forall w2 content,
          worktree os (fst (write_text os w2 f content)) p = worktree os w2 p)
    /\ (forall w2 w3, remove os w2 f = Some w3 ->
                      worktree os w3 p = worktree os w2 p).

(** [git apply --check] changes no file of the working tree. *)
Definition check_is_dry_run (os : OS) (p : string) : Prop :=
  forall w f, worktree os (fst (run os w (git_apply_check f p))) p
              = worktree os w p.

(** [git apply] is all or nothing: when it exits with an error it has
    written nothing. *)
Definition apply_is_atomic (os : OS) (p : string) : Prop :=
  forall w f w' rc out err,
    run os w (git_apply f p) = (w', Exited rc out err) -> rc <> 0%Z ->
    worktree os w' p = worktree os w p.

(** Two readings of a working tree: whether a tracked file differs from
    the last commit, and whether a file that is not tracked is there.
    [git reset --hard HEAD] that exits with 0 has left no tracked file
    modified; [git clean -fdx] that exits with 0 has left no file that is
    not tracked, ignored ones included, and has touched no tracked
    file. *)
Definition reset_discards (os : OS) (modified : Tree os -> bool)
    (p : string) : Prop :=
  forall w w' cmd out err,
    argv cmd = ["git"; "reset"; "--hard"; "HEAD"]%string ->
    cwd cmd = Some p ->
    run os w cmd = (w', Exited 0 out err) ->
    modified (worktree os w' p) = false.

Definition clean_deletes (os : OS) (modified untracked : Tree os -> bool)
    (p : string) : Prop :=
  forall w w' cmd out err,
    argv cmd = ["git"; "clean"; "-fdx"]%string ->
    cwd cmd = Some p ->
    run os w cmd = (w', Exited 0 out err) ->
    untracked (worktree os w' p) = false
    /\ modified (worktree os w' p) = modified (worktree os w p).

(** C3, as stated: a result with [success = false] comes with the
    working tree of before the call. *)
Definition failure_leaves_tree (os : OS) (p : string) : Prop :=
  forall patch w w' l r,
    apply_patch os p patch w = (w', l, Return r) -> success r = false ->
    worktree os w' p = worktree os w p.


End GitAssumptions.

(** ** A small world to run the functions in

    One remote repository with one commit, a set of directories, the
    files of the temporary directory and one working tree, which is the
    list of the patches applied to it. *)

Module GitScenario.
Import PyStr RepositoryManager.
Local Open Scope string_scope.

Record world := {
  dirs : list string;
  files : list (string * string);
  applied : list string
}.

Definition remote_url : string := "https://github.com/octocat/Hello-World.git".
Definition remote_commit : string := "7fd1a60b01f91b314f59955a4e4d4e80d8edf11d".

Definition lookup (f : string) (fs : list (string * string)) : option string :=
  match find (fun e => String.eqb (fst e) f) fs with
  | Some e => Some (snd e)
  | None => None
  end.

Definition args_are (given expected : list string) : bool :=
  if list_eq_dec string_dec given expected then true else false.

Definition clone (w : world) (url dst : string) : world * completion :=
  if String.eqb url remote_url
  then ({| dirs := dst :: dirs w; files := files w; applied := applied w |},
        Exited 0 "" "")
  else (w, Exited 128 "" "fatal: repository not found").

(** A patch applies when it starts with [diff --git]. *)
Definition checked (w : world) (f : string) : completion :=
  match lookup f (files w) with
  | Some content =>
      if startswith content "diff --git" then Exited 0 "" ""
      else Exited 128 "" "error: corrupt patch at line 1"
  | None => Exited 128 "" "error: can't open patch"
  end.

Definition scenario_run (w : world) (cmd : command) : world * completion :=
  match argv cmd with
  | [g; c; a1; a2; url; dst] =>
      if args_are [g; c; a1; a2] ["git"; "clone"; "--depth"; "1"]
      then clone w url dst else (w, NotStarted)
  | [g; c; a1; a2] =>
      if args_are [g; c] ["git"; "clone"] then clone w a1 a2
      else if args_are [g; c; a1; a2] ["git"; "fetch"; "--depth"; "1000"]
      then (w, Exited 0 "" "")
      else if args_are [g; c; a1] ["git"; "apply"; "--check"]
      then (w, checked w a2)
      else if args_are [g; c; a1; a2] ["git"; "reset"; "--hard"; "HEAD"]
      then ({| dirs := dirs w; files := files w; applied := [] |}, Exited 0 "" "")
      else (w, NotStarted)
  | [g; c; a] =>
      if args_are [g; c] ["git"; "checkout"]
      then (w, if String.eqb a remote_commit then Exited 0 "" ""
               else Exited 1 "" "error: pathspec did not match")
      else if args_are [g; c] ["git"; "apply"]
      then match checked w a, lookup a (files w) with
           | Exited 0 _ _, Some content =>
               ({| dirs := dirs w; files := files w;
                   applied := content :: applied w |}, Exited 0 "" "")
           | c, _ => (w, c)
           end
      else if args_are [g; c; a] ["git"; "clean"; "-fdx"]
      then (w, Exited 0 "" "")
      else (w, NotStarted)
  | _ => (w, NotStarted)
  end.

Definition scenario_exists (w : world) (p : string) : bool :=
  existsb (String.eqb p) (dirs w)
  || existsb (fun e => String.eqb p (fst e)) (files w).

Definition scenario_tempfile (w : world) (suffix : string)
  : option (world * string) :=
  let name := "/tmp/tmp" ++ str_of_int (N.of_nat (List.length (files w)))
                ++ suffix in
  Some ({| dirs := dirs w; files := (name, EmptyString) :: files w;
           applied := applied w |}, name).

(** The locale is UTF-8 and the disk has room: every text is written. *)
Definition scenario_write (w : world) (f content : string)
  : world * written :=
  ({| dirs := dirs w;
      files := map (fun e => if String.eqb (fst e) f then (f, content) else e)
                   (files w);
      applied := applied w |}, Written).

Definition scenario_remove (w : world) (f : string) : option world :=
  match lookup f (files w) with
  | Some _ =>
      Some {| dirs := dirs w;
              files := filter (fun e => negb (String.eqb (fst e) f)) (files w);
              applied := applied w |}
  | None => None
  end.

Definition scenario : OS := {|
  World := world;
  Tree := list string;
  run := scenario_run;
  path_exists := scenario_exists;
  makedirs := fun w p =>
    Some {| dirs := p :: dirs w; files := files w; applied := applied w |};
  named_temporary_file := scenario_tempfile;
  write_text := scenario_write;
  remove := scenario_remove;
  bytes_decode := fun b => Some b;
  locale_decode := fun b => Some b;
  worktree := fun w _ => applied w
|}.

(** An empty cache. *)
Definition fresh : world := {| dirs := []; files := []; applied := [] |}.

(** The slot of the remote commit in the cache at [/cache], the cache
    once that commit is cloned, and the log of the call that cloned it. *)
Definition slot : string := "/cache/octocat_Hello-World/7fd1a60b".

Definition cloned : world :=
  {| dirs := [slot; "/cache/octocat_Hello-World"]; files := [];
     applied := [] |}.

Definition clone_log : list event :=
  [(git_clone_shallow remote_url slot, Exited 0 "" "");
   (git_checkout remote_commit slot, Exited 0 "" "")].

(** Another commit with the same first eight characters. *)
Definition lookalike_commit : string :=
  "7fd1a60bffffffffffffffffffffffffffffffff".

(** A commit the remote does not have, its slot, the cache after the call
    that failed to check it out, and the log of that call. *)
Definition missing_commit : string :=
  "0000000000000000000000000000000000000000".

Definition stale_slot : string := "/cache/octocat_Hello-World/00000000".

Definition stale : world :=
  {| dirs := [stale_slot; "/cache/octocat_Hello-World"]; files := [];
     applied := [] |}.

Definition checkout_failure : completion :=
  Exited 1 "" "error: pathspec did not match".

Definition failed_log : list event :=
  [(git_clone_shallow remote_url stale_slot, Exited 0 "" "");
   (git_checkout missing_commit stale_slot, checkout_failure);
   (git_fetch_deeper stale_slot, Exited 0 "" "");
   (git_checkout missing_commit stale_slot, checkout_failure)].

End GitScenario.

(** ** [PatchValidator.classify_patch_error] *)

Module PatchErrors.
Import PyStr PatchValidator RepairValue.
Local Open Scope string_scope.

(** [c.lower()] on the ASCII letters; other bytes are left as they are
    (the diagnostics of [git] are ASCII). *)
Definition lower_char (c : ascii) : ascii :=
  let n := nat_of_ascii c in
  if ((65 <=? n)%nat && (n <=? 90)%nat)%bool then ascii_of_nat (n + 32)
  else c.

(** [s.lower()] *)
Fixpoint lower (s : string) : string :=
  match s with
  | EmptyString => EmptyString
  | String c rest => String (lower_char c) (lower rest)
  end.

Definition classify_patch_error (error_message : string) : string :=
  if is_empty error_message then "success" else
  let error_lower := lower error_message in
  if contains "corrupt patch" error_lower then "corrupt_patch"
  else if contains "does not apply" error_lower || contains "hunk" error_lower
       then "hunk_mismatch"
  else if contains "no such file" error_lower then "file_not_found"
  else "other_error".

(** The same on a value that may be [None]: [not None] holds. *)
Definition classify_patch_error_value (error_message : option string) : string :=
  match error_message with
  | None => "success"
  | Some m => classify_patch_error m
  end.

End PatchErrors.

(** ** The loop of [experiments/validate_patches.py]

    The predictions and the metadata are what the two loaders of the
    script give for files whose fields are strings, with a [model_patch]
    that may be [null].  The [print] calls and the progress bar are left
    out: standard output is taken to accept every text. *)

Module ValidatePatches.
Import PyStr PatchValidator RepairValue PatchErrors RepositoryManager.
Local Open Scope string_scope.

(** [len(s)]: the number of characters, which are the bytes that do not
    continue a UTF-8 sequence. *)
Definition is_continuation (c : ascii) : bool :=
  let n := nat_of_ascii c in ((128 <=? n)%nat && (n <? 192)%nat)%bool.

Fixpoint py_len (s : string) : nat :=
  match s with
  | EmptyString => 0
  | String c rest => (if is_continuation c then 0 else 1) + py_len rest
  end.

(** A prediction and the metadata of a task, with the keys the loop
    reads. *)
Record prediction := {
  instance_id : string;
  model_patch : option string      (* a string, or [null] in the file *)
}.

Record task_meta := {
  repo : string;
  base_commit : string
}.

(** The value under the key [error] of a result: [None], a text, or
    [str(e)] for the exception [get_repo] raised. *)
Inductive error_value :=
| NoError
| ErrorText (msg : string)
| StrOf (e : exn).

(** One dictionary of [results].  The one appended after a failed clone
    has no [patch_valid_format] and no [patch_length]. *)
Record result_row := {
  row_instance_id : string;
  row_repo : string;
  validation_result : string;
  patch_valid_format : option bool;
  patch_length : option nat;
  row_error : error_value
}.

(** What can end the loop early: an exception of the repository manager,
    the [TypeError] of slicing [None], or the [AttributeError] of
    [validate_patch(None)], where [None] has no [startswith]. *)
Inductive loop_exn :=
| FromManager (e : exn)
| TypeError
| AttributeError.

Inductive loop_outcome (A : Type) :=
| Next (a : A)
| Abort (e : loop_exn).
Arguments Next {A} a.
Arguments Abort {A} e.

(** The exceptions that are not an answer of [git]. *)
Definition environment_error (e : loop_exn) : Prop :=
  e = FromManager OSError \/ e = FromManager UnicodeEncodeError
  \/ e = FromManager UnicodeDecodeError
  \/ exists cmd, e = FromManager (TimeoutExpired cmd).

(** [instance_id in task_metadata], for a prediction. *)
Definition has_metadata (task_metadata : string -> option task_meta)
    (pred : prediction) : bool :=
  match task_metadata (instance_id pred) with
  | Some _ => true
  | None => false
  end.

Section Loop.
Variable os : OS.
(** [repo_manager.cache_dir], and [task_metadata] as the loop reads it:
    [in] and [[]]. *)
Variable cache_dir : string.
Variable task_metadata : string -> option task_meta.

(** The branch that sets [result_type] and [error_msg]. *)
Definition try_apply (repo_path patch : string) (w : World os)
  : World os * list event * loop_outcome (string * error_value) :=
  if is_empty patch || (py_len patch <? 10)%nat then
    (w, [], Next ("empty_patch", ErrorText "Patch is empty or too short"))
  else
    match apply_patch os repo_path patch w with
    | (w', l, Raise e) => (w', l, Abort (FromManager e))
    | (w', l, Return apply_result) =>
        if success apply_result then (w', l, Next ("success", NoError))
        else
          let result_type := classify_patch_error_value (error apply_result) in
          match error apply_result with
          | Some error_msg => (w', l, Next (result_type, ErrorText error_msg))
          | None => (w', l, Abort TypeError)       (* error_msg[:100] *)
          end
    end.

(** The body of the [for] loop: the row it appends, if any. *)
Definition validate_one (pred : prediction) (w : World os)
  : World os * list event * loop_outcome (option result_row) :=
  let instance_id := instance_id pred in
  let patch := model_patch pred in
  match task_metadata instance_id with
  | None => (w, [], Next None)                          (* continue *)
  | Some meta =>
      match get_repo os cache_dir (repo meta) (base_commit meta) w with
      | (w1, l1, Raise e) =>
          (w1, l1,
           Next (Some {| row_instance_id := instance_id;
                         row_repo := repo meta;
                         validation_result := "clone_failed";
                         patch_valid_format := None;
                         patch_length := None;
                         row_error := StrOf e |}))
      | (w1, l1, Return repo_path) =>
          match patch with
          | None => (w1, l1, Abort AttributeError)   (* validate_patch(None) *)
          | Some patch =>
          let validation := validate_patch patch in
          match try_apply repo_path patch w1 with
          | (w2, l2, Abort e) => (w2, (l1 ++ l2)%list, Abort e)
          | (w2, l2, Next (result_type, error_msg)) =>
              (* try: reset_repo except: pass *)
              match reset_repo os repo_path w2 with
              | (w3, l3, _) =>
                  (w3, (l1 ++ l2 ++ l3)%list,
                   Next (Some {| row_instance_id := instance_id;
                                 row_repo := repo meta;
                                 validation_result := result_type;
                                 patch_valid_format := Some (valid validation);
                                 patch_length := Some (py_len patch);
                                 row_error := error_msg |}))
              end
          end
          end
      end
  end.

(** The [for] loop over the predictions, from the rows it has so far. *)
Fixpoint validate_loop (predictions : list prediction)
    (results : list result_row) (w : World os)
  : World os * list event * loop_outcome (list result_row) :=
  match predictions with
  | [] => (w, [], Next results)
  | pred :: rest =>
      match validate_one pred w with
      | (w1, l1, Abort e) => (w1, l1, Abort e)
      | (w1, l1, Next appended) =>
          let results' := match appended with
                          | Some row => (results ++ [row])%list
                          | None => results
                          end in
          match validate_loop rest results' w1 with
          | (w2, l2, r) => (w2, (l1 ++ l2)%list, r)
          end
      end
  end.

End Loop.

End ValidatePatches.

(** ** Reading a log, and worlds where [git] fails *)

Module LogShape.
Import PyStr RepositoryManager GitAssumptions.
Local Open Scope string_scope.

Definition is_git_checkout (cmd : command) : bool :=
  match argv cmd with
  | g :: sub :: _ => String.eqb g "git" && String.eqb sub "checkout"
  | _ => false
  end.

Definition is_git_fetch (cmd : command) : bool :=
  match argv cmd with
  | g :: sub :: _ => String.eqb g "git" && String.eqb sub "fetch"
  | _ => false
  end.


(** The commands of a kind that a log shows as run. *)
Definition count_commands (kind : command -> bool) (l : list event) : nat :=
  List.length (filter (fun ev => kind (fst ev)) l).

(** Every command that is not a clone comes after a clone that exited
    with 0; [cloned] says whether one has. *)
Fixpoint clone_first (cloned : bool) (l : list event) : bool :=
  match l with
  | [] => true
  | ev :: rest =>
      if is_git_clone (fst ev)
      then clone_first (cloned || exited_ok (snd ev)) rest
      else cloned && clone_first cloned rest
  end.

(** [os.remove] that succeeds has removed the file. *)
Definition remove_deletes (os : OS) : Prop :=
  forall w w' f, remove os w f = Some w' -> path_exists os w' f = false.

End LogShape.

Module GitFaults.
Import PyStr DiffModel RepositoryManager GitScenario.
Local Open Scope string_scope.

(** A machine without [git]: no command starts. *)
Definition no_git : OS := {|
  World := world;
  Tree := list string;
  run := fun w _ => (w, NotStarted);
  path_exists := scenario_exists;
  makedirs := fun w p =>
    Some {| dirs := p :: dirs w; files := files w; applied := applied w |};
  named_temporary_file := scenario_tempfile;
  write_text := scenario_write;
  remove := scenario_remove;
  bytes_decode := fun b => Some b;
  locale_decode := fun b => Some b;
  worktree := fun w _ => applied w
|}.

(** A [git] that refuses every patch without a word, and cannot reset. *)
Definition quiet_run (w : world) (cmd : command) : world * completion :=
  match argv cmd with
  | [g; c; a1; a2] =>
      if args_are [g; c; a1] ["git"; "apply"; "--check"]
      then (w, Exited 1 "" "")
      else if args_are [g; c; a1; a2] ["git"; "reset"; "--hard"; "HEAD"]
      then (w, Exited 128 "" "fatal: not a git repository")
      else scenario_run w cmd
  | _ => scenario_run w cmd
  end.

Definition quiet_git : OS := {|
  World := world;
  Tree := list string;
  run := quiet_run;
  path_exists := scenario_exists;
  makedirs := fun w p =>
    Some {| dirs := p :: dirs w; files := files w; applied := applied w |};
  named_temporary_file := scenario_tempfile;
  write_text := scenario_write;
  remove := scenario_remove;
  bytes_decode := fun b => Some b;
  locale_decode := fun b => Some b;
  worktree := fun w _ => applied w
|}.

(** The scenario with a file system in which a removed name is gone,
    whatever it named. *)
Definition tidy_remove (w : world) (f : string) : option world :=
  match lookup f (files w) with
  | Some _ =>
      Some {| dirs := filter (fun d => negb (String.eqb f d)) (dirs w);
              files := filter (fun e => negb (String.eqb f (fst e))) (files w);
              applied := applied w |}
  | None => None
  end.

Definition tidy : OS := {|
  World := world;
  Tree := list string;
  run := scenario_run;
  path_exists := scenario_exists;
  makedirs := fun w p =>
    Some {| dirs := p :: dirs w; files := files w; applied := applied w |};
  named_temporary_file := scenario_tempfile;
  write_text := scenario_write;
  remove := tidy_remove;
  bytes_decode := fun b => Some b;
  locale_decode := fun b => Some b;
  worktree := fun w _ => applied w
|}.

(** A [git apply] that stops half way: the dry run passes, and the
    application writes the first file of the patch, fails on the second
    and exits with 1. *)
Definition partial_run (w : world) (cmd : command) : world * completion :=
  match argv cmd with
  | [g; c; a] =>
      if args_are [g; c] ["git"; "apply"]
      then match lookup a (files w) with
           | Some content =>
               ({| dirs := dirs w; files := files w;
                   applied := ("the first file of " ++ content) :: applied w |},
                Exited 1 "" "error: unable to write file b/g")
           | None => scenario_run w cmd
           end
      else scenario_run w cmd
  | _ => scenario_run w cmd
  end.

Definition partial_git : OS := {|
  World := world;
  Tree := list string;
  run := partial_run;
  path_exists := scenario_exists;
  makedirs := fun w p =>
    Some {| dirs := p :: dirs w; files := files w; applied := applied w |};
  named_temporary_file := scenario_tempfile;
  write_text := scenario_write;
  remove := scenario_remove;
  bytes_decode := fun b => Some b;
  locale_decode := fun b => Some b;
  worktree := fun w _ => applied w
|}.

(** A machine whose locale is ASCII: a text with another character is
    not written, and no stream with another byte is decoded. *)
Definition ascii_write (w : world) (f content : string) : world * written :=
  if is_ascii content then scenario_write w f content else (w, EncodeFailed).

Definition ascii_decode (raw : string) : option string :=
  if is_ascii raw then Some raw else None.

Definition ascii_locale : OS := {|
  World := world;
  Tree := list string;
  run := scenario_run;
  path_exists := scenario_exists;
  makedirs := fun w p =>
    Some {| dirs := p :: dirs w; files := files w; applied := applied w |};
  named_temporary_file := scenario_tempfile;
  write_text := ascii_write;
  remove := scenario_remove;
  bytes_decode := fun b => Some b;
  locale_decode := ascii_decode;
  worktree := fun w _ => applied w
|}.

(** A patch for a file with an accent in its name. *)
Definition accent_patch : string :=
  "diff --git a/caf" ++ String "195"%char (String "169"%char "")
    ++ ".py b/caf" ++ String "195"%char (String "169"%char "") ++ ".py".

(** A working tree with nothing else in it than what [reset_repo] is
    there to remove: the tracked files that were modified and the files
    that are not tracked. *)
Record dirty := {
  modified_files : list string;
  untracked_files : list string
}.

Definition dirty_run (w : dirty) (cmd : command) : dirty * completion :=
  if args_are (argv cmd) ["git"; "reset"; "--hard"; "HEAD"]
  then ({| modified_files := []; untracked_files := untracked_files w |},
        Exited 0 "HEAD is now at 7fd1a60" "")
  else if args_are (argv cmd) ["git"; "clean"; "-fdx"]
  then ({| modified_files := modified_files w; untracked_files := [] |},
        Exited 0 "" "")
  else (w, NotStarted).

Definition dirty_tree : OS := {|
  World := dirty;
  Tree := dirty;
  run := dirty_run;
  path_exists := fun _ _ => true;
  makedirs := fun w _ => Some w;
  named_temporary_file := fun _ _ => None;
  write_text := fun w _ _ => (w, WriteFailed);
  remove := fun _ _ => None;
  bytes_decode := fun b => Some b;
  locale_decode := fun b => Some b;
  worktree := fun w _ => w
|}.

Definition has_modified (t : dirty) : bool :=
  negb (Nat.eqb (List.length (modified_files t)) 0).

Definition has_untracked (t : dirty) : bool :=
  negb (Nat.eqb (List.length (untracked_files t)) 0).

Definition after_failed_apply : dirty :=
  {| modified_files := ["f.py"]; untracked_files := ["f.py.orig"; "build"] |}.

(** The metadata of one task, and predictions for it and for a task
    without metadata. *)
Definition hello_meta (id : string) : option ValidatePatches.task_meta :=
  if String.eqb id "hello-1"
  then Some {| ValidatePatches.repo := "octocat/Hello-World";
               ValidatePatches.base_commit := remote_commit |}
  else None.

Definition good_prediction : ValidatePatches.prediction :=
  {| ValidatePatches.instance_id := "hello-1";
     ValidatePatches.model_patch := Some "diff --git a/f b/f" |}.

Definition short_prediction : ValidatePatches.prediction :=
  {| ValidatePatches.instance_id := "hello-1";
     ValidatePatches.model_patch := Some "diff" |}.

Definition bad_prediction : ValidatePatches.prediction :=
  {| ValidatePatches.instance_id := "hello-1";
     ValidatePatches.model_patch := Some "not a patch at all" |}.

Definition stray_prediction : ValidatePatches.prediction :=
  {| ValidatePatches.instance_id := "unknown-7";
     ValidatePatches.model_patch := Some "diff --git a/f b/f" |}.

(** A prediction whose patch is [null], and one with the patch above. *)
Definition null_prediction : ValidatePatches.prediction :=
  {| ValidatePatches.instance_id := "hello-1";
     ValidatePatches.model_patch := None |}.

Definition accent_prediction : ValidatePatches.prediction :=
  {| ValidatePatches.instance_id := "hello-1";
     ValidatePatches.model_patch := Some accent_patch |}.

End GitFaults.

(** * Properties of the patch validator *)

Module PatchValidatorSpec.
Import PyStr PatchValidator RepairValue DiffModel.
Local Open Scope string_scope.

(** ** Strings *)

Lemma append_assoc (s t u : string) : (s ++ t) ++ u = s ++ (t ++ u).
Proof. induction s as [|c s IH]; simpl; [reflexivity | now rewrite IH]. Qed.

(** [endswith s "\n"] looks at the last character only. *)
Lemma endswith_nl_cons (c : ascii) (s : string) :
  s <> "" -> endswith (String c s) nl = endswith s nl.
Proof.
  destruct s as [|d s]; [congruence | intros _].
  unfold endswith. simpl String.length.
  replace (S (S (String.length s)) - 1) with (S (String.length s)) by lia.
  replace (S (String.length s) - 1) with (String.length s) by lia.
  reflexivity.
Qed.

Lemma endswith_nl_single (c : ascii) :
  endswith (String c "") nl = Ascii.eqb c LF.
Proof.
  unfold endswith; simpl. destruct (Ascii.eqb_spec c LF) as [->|Hne].
  - reflexivity.
  - destruct (String.eqb_spec (String c "") nl) as [E|_]; [|reflexivity].
    inversion E; contradiction.
Qed.

Lemma endswith_append_nl (s : string) : endswith (s ++ nl) nl = true.
Proof.
  induction s as [|c s IH].
  - reflexivity.
  - simpl append. rewrite endswith_nl_cons; [exact IH|].
    destruct s; discriminate.
Qed.

Lemma endswith_nl_inv (s : string) :
  endswith s nl = true -> exists t, s = t ++ nl.
Proof.
  induction s as [|c s IH]; intros H.
  - discriminate.
  - destruct s as [|d s].
    + rewrite endswith_nl_single in H. apply Ascii.eqb_eq in H. subst c.
      exists "". reflexivity.
    + rewrite endswith_nl_cons in H by discriminate.
      destruct (IH H) as [t Ht]. exists (String c t). simpl. now rewrite Ht.
Qed.

(** ** Lines *)

Lemma split_lines_nonempty (s : string) : split_lines s <> [].
Proof.
  destruct s as [|c s]; simpl; [discriminate|].
  destruct (Ascii.eqb c LF); [discriminate|].
  destruct (split_lines s); discriminate.
Qed.

(** A text that ends with a line feed has the empty string as its last
    line. *)
Lemma split_lines_append_nl (s : string) :
  split_lines (s ++ nl) = (split_lines s ++ [""])%list.
Proof.
  induction s as [|c s IH].
  - reflexivity.
  - simpl. rewrite IH. destruct (Ascii.eqb c LF); [reflexivity|].
    pose proof (split_lines_nonempty s) as Hne.
    destruct (split_lines s); [contradiction | reflexivity].
Qed.

Lemma join_lines_cons (l : string) (ls : list string) :
  ls <> [] -> join_lines (l :: ls) = l ++ nl ++ join_lines ls.
Proof. destruct ls; [contradiction | reflexivity]. Qed.

Lemma join_lines_snoc_empty (ls : list string) :
  ls <> [] -> join_lines (ls ++ [""]) = join_lines ls ++ nl.
Proof.
  induction ls as [|l ls IH]; [contradiction | intros _].
  destruct ls as [|l' ls].
  - simpl. reflexivity.
  - change ((l :: l' :: ls) ++ [""])%list with (l :: ((l' :: ls) ++ [""]))%list.
    rewrite join_lines_cons by (simpl; discriminate).
    rewrite IH by discriminate.
    rewrite (@join_lines_cons l (l' :: ls)) by discriminate.
    now rewrite !append_assoc.
Qed.

(** ** The repair loop *)

(** The loop body, as one equation. *)
Lemma repair_lines_cons (line : string) (rest : list string) :
  repaired_lines (line :: rest) =
  if startswith line "@@" then
    match hunk_header_match line with
    | None => line :: repaired_lines rest
    | Some _ => (repaired_hunk (line :: hunk_body rest)
                   ++ repaired_lines (after_hunk rest))%list
    end
  else line :: repaired_lines rest.
Proof.
  simp repaired_lines.
  destruct (startswith line "@@"); [|now simp repaired_lines].
  simp repaired_lines.
  destruct (hunk_header_match line); now simp repaired_lines.
Qed.

(** The empty line is never a hunk boundary. *)
Lemma hunk_body_snoc_empty (ls : list string) :
  (hunk_body (ls ++ [""]) = hunk_body ls ++ [""]
   /\ after_hunk (ls ++ [""]) = [] /\ after_hunk ls = [])%list
  \/ (hunk_body (ls ++ [""]) = hunk_body ls
      /\ after_hunk ls <> []
      /\ after_hunk (ls ++ [""]) = after_hunk ls ++ [""])%list.
Proof.
  induction ls as [|l ls IH]; simpl.
  - left. auto.
  - destruct (in_hunk l).
    + destruct IH as [(H1 & H2 & H3)|(H1 & H2 & H3)].
      * left. rewrite H1. auto.
      * right. rewrite H1. auto.
    + right. repeat split; discriminate.
Qed.

Lemma clean_body_snoc_empty (ls : list string) :
  clean_body (ls ++ [""]) = (clean_body ls ++ [""])%list.
Proof. unfold clean_body. rewrite filter_app. reflexivity. Qed.

(** A matched header is always emitted: a repaired hunk is never empty,
    and it keeps a final empty line of its body. *)
Lemma repair_hunk_snoc_empty (header : string) (body : list string) :
  exists out, out <> [] /\
    repaired_hunk (header :: body ++ [""]) = (out ++ [""])%list.
Proof.
  unfold repaired_hunk.
  destruct (hunk_header_match header) as [m|].
  - destruct (count_lines (body ++ [""])) as [oc nc].
    rewrite clean_body_snoc_empty.
    eexists (_ :: clean_body body). split; [discriminate | reflexivity].
  - exists (header :: body). split; [discriminate | reflexivity].
Qed.

Lemma repair_hunk_nonempty (header : string) (body : list string) :
  repaired_hunk (header :: body) <> [].
Proof.
  unfold repaired_hunk. destruct (hunk_header_match header); [|discriminate].
  destruct (count_lines body). discriminate.
Qed.

(** The loop keeps the final empty line, and emits something before it
    whenever there is a line before it. *)
Lemma repair_lines_snoc_empty (n : nat) :
  forall ls, List.length ls <= n ->
  exists out, repaired_lines (ls ++ [""]) = (out ++ [""])%list
              /\ (ls <> [] -> out <> []).
Proof.
  induction n as [|n IH]; intros ls Hlen.
  - destruct ls; [|simpl in Hlen; lia].
    exists []. split; [reflexivity | congruence].
  - destruct ls as [|line rest].
    + exists []. split; [reflexivity | congruence].
    + simpl in Hlen. simpl app. rewrite repair_lines_cons.
      assert (Hcopy : exists out,
                 line :: repaired_lines (rest ++ [""]) = (out ++ [""])%list
                 /\ (line :: rest <> [] -> out <> [])).
      { destruct (IH rest ltac:(lia)) as (out & Hout & _).
        exists (line :: out). rewrite Hout. split; [reflexivity | discriminate]. }
      destruct (startswith line "@@"); [|exact Hcopy].
      destruct (hunk_header_match line) as [m|] eqn:Hm; [|exact Hcopy].
      destruct (hunk_body_snoc_empty rest) as [(H1 & H2 & H3)|(H1 & H2 & H3)].
      * rewrite H1, H2.
        destruct (repair_hunk_snoc_empty line (hunk_body rest)) as (out & Hne & E).
        exists out. rewrite E. simp repaired_lines. rewrite app_nil_r.
        split; [reflexivity | auto].
      * rewrite H1, H3.
        pose proof (after_hunk_length rest) as Hle.
        destruct (IH (after_hunk rest) ltac:(lia)) as (out & Hout & _).
        exists (repaired_hunk (line :: hunk_body rest) ++ out)%list.
        rewrite Hout, app_assoc. split; [reflexivity|].
        intros _ E. apply app_eq_nil in E. destruct E as [E _].
        exact (repair_hunk_nonempty _ _ E).
Qed.

Lemma ensure_newline_ends (p : string) : exists s, ensure_newline p = s ++ nl.
Proof.
  unfold ensure_newline. destruct (endswith p nl) eqn:E.
  - now apply endswith_nl_inv.
  - now exists p.
Qed.

(** The shape of every repaired text. *)
Lemma repair_patch_shape (d : string) : exists s, repaired_patch d = s ++ nl.
Proof.
  unfold repaired_patch.
  destruct (ensure_newline_ends (replace_crlf d)) as [s ->].
  rewrite split_lines_append_nl.
  destruct (repair_lines_snoc_empty (n := List.length (split_lines s))
              (split_lines s) (le_n _)) as (out & -> & Hne).
  specialize (Hne (split_lines_nonempty s)).
  exists (join_lines out). now apply join_lines_snoc_empty.
Qed.

(** ** The header: printing and matching *)

Lemma span_digits_printed (d : Decimal.uint) (s : string) :
  starts_with_digit s = false ->
  span_digits (NilEmpty.string_of_uint d ++ s) = (NilEmpty.string_of_uint d, s).
Proof.
  intros Hs. induction d; simpl; try (rewrite IHd; reflexivity).
  destruct s as [|c s]; [reflexivity|]. simpl in Hs. simpl. now rewrite Hs.
Qed.

Lemma span_digits_str_of_int (n : N) (s : string) :
  starts_with_digit s = false ->
  span_digits (str_of_int n ++ s) = (str_of_int n, s).
Proof. apply span_digits_printed. Qed.

(** [int(str(n)) = n] *)
Lemma int_of_digits_str_of_int (n : N) : digits_value (str_of_int n) = n.
Proof.
  unfold digits_value, str_of_int. rewrite NilEmpty.usu.
  apply DecimalN.Unsigned.of_to.
Qed.

Lemma str_of_int_nonempty (n : N) : is_empty (str_of_int n) = false.
Proof.
  destruct (str_of_int n) eqn:E; [|reflexivity].
  pose proof (int_of_digits_str_of_int n) as H. rewrite E in H.
  cbv in H. subst n. discriminate E.
Qed.

(** A rebuilt header matches the pattern, and its groups are the numbers
    it was built from. *)
Lemma hunk_header_match_format (a b c d : N) (context : string) :
  hunk_header_match (format_header a b c d context)
  = Some {| group1 := str_of_int a; group2 := str_of_int b;
            group3 := str_of_int c; group4 := str_of_int d;
            group5 := until_lf context |}.
Proof.
  unfold hunk_header_match, format_header.
  change (strip_prefix "@@ -" ("@@ -" ++ ?x)) with (Some x). cbv beta iota.
  rewrite span_digits_str_of_int by reflexivity.
  rewrite str_of_int_nonempty.
  change (opt_comma ("," ++ ?x)) with x.
  rewrite span_digits_str_of_int by reflexivity.
  change (strip_prefix " +" (" +" ++ ?x)) with (Some x). cbv beta iota.
  rewrite span_digits_str_of_int by reflexivity.
  rewrite str_of_int_nonempty.
  change (opt_comma ("," ++ ?x)) with x.
  rewrite span_digits_str_of_int by reflexivity.
  reflexivity.
Qed.

Lemma declared_counts_format (a b c d : N) (context : string) :
  declared_counts (format_header a b c d context) = Some (b, d).
Proof.
  unfold declared_counts. rewrite hunk_header_match_format. simpl.
  unfold count_of_group. rewrite !str_of_int_nonempty.
  now rewrite !int_of_digits_str_of_int.
Qed.

(** ** [validate_patch] *)

(** C7.  [validate_patch] is a total function of the patch text: on every
    string, the empty one included, it returns a result whose issues are
    the outcomes of the four checks, each evaluated on the patch whatever
    the others found and listed in the order of the checks, and whose
    [valid] flag is true exactly when that list is empty.  On the patch
    without a [diff --git] line of the specification it returns
    [valid = false] with the single issue [Missing 'diff --git' header]. *)
Theorem validate_patch_total_independent (patch : string) :
  issues (validate_patch patch)
    = (check_header patch ++ check_markers patch
         ++ check_hunks patch ++ check_crlf patch)%list
  /\ valid (validate_patch patch)
     = match issues (validate_patch patch) with [] => true | _ :: _ => false end
  /\ has_diff_header (validate_patch patch) = startswith patch "diff --git"
  /\ has_hunks (validate_patch patch) = contains "@@" patch
  /\ validate_patch ""
     = {| valid := false;
          issues := ["Missing 'diff --git' header";
                     "Missing file markers (--- / +++)";
                     "No hunks found (missing @@)"];
          has_diff_header := false;
          has_hunks := false |}
  /\ validate_patch headerless_patch
     = {| valid := false;
          issues := ["Missing 'diff --git' header"];
          has_diff_header := false;
          has_hunks := true |}.
Proof.
  repeat split; try reflexivity.
  - unfold validate_patch, check_header, check_markers, check_hunks,
      check_crlf, append_if; simpl issues.
    destruct (startswith patch "diff --git"),
             (contains "---" patch && contains "+++" patch),
             (contains "@@" patch), (contains crlf patch); reflexivity.
  - unfold validate_patch; simpl valid; simpl issues.
    destruct (append_if _ _ _); reflexivity.
Qed.

(** A patch with a CRLF in it is reported as such and is not valid. *)
Lemma validate_patch_reports_crlf (patch : string) :
  contains crlf patch = true ->
  In issue_crlf (issues (validate_patch patch))
  /\ valid (validate_patch patch) = false.
Proof.
  intros H. unfold validate_patch; cbv zeta; simpl issues; simpl valid.
  rewrite H. change (append_if true issue_crlf ?l) with (l ++ [issue_crlf])%list.
  split.
  - apply in_or_app. right. now left.
  - rewrite length_app. simpl. apply Nat.eqb_neq. lia.
Qed.

(** ** The trailing line feed *)

(** C5, as stated, fails: the two line feeds that end ["a\n\n"] are both
    still there after the repair. *)
Lemma repair_keeps_blank_tail :
  exists out,
    repair_patch blank_tail_patch = Ok out
    /\ out = blank_tail_patch
    /\ endswith out (nl ++ nl) = true
    /\ ends_with_one_lf out = false.
Proof. eexists. repeat split; vm_compute; reflexivity. Qed.

(** Every repaired text ends with a line feed. *)
Lemma repaired_patch_ends_with_lf (d : string) :
  endswith (repaired_patch d) nl = true.
Proof.
  destruct (repair_patch_shape d) as [s ->]. apply endswith_append_nl.
Qed.

(** ** The count invariant *)

(** The counting loop of [_repair_hunk] computes the two counts. *)
Lemma count_lines_spec (body : list string) :
  count_lines body = (old_lines body, new_lines body).
Proof.
  unfold count_lines, old_lines, new_lines.
  enough (G : forall o n,
             fold_left count_line body (o, n)
             = (o + N.of_nat (List.length
                      (filter (fun l => is_context l || is_removed l) body)),
                n + N.of_nat (List.length
                      (filter (fun l => is_context l || is_added l) body)))%N)
    by (rewrite G; reflexivity).
  set (fo := fun l => is_context l || is_removed l).
  set (fn := fun l => is_context l || is_added l).
  assert (Hstep : forall o n l,
             count_line (o, n) l
             = (o + (if fo l then 1 else 0), n + (if fn l then 1 else 0))%N).
  { intros o n l. subst fo fn.
    unfold count_line, is_context, is_removed, is_added, first_char_is.
    destruct l as [|c l]; simpl; [now rewrite !N.add_0_r|].
    destruct (Ascii.eqb_spec c "-"%char) as [->|H1]; simpl;
      [now rewrite N.add_0_r|].
    destruct (Ascii.eqb_spec c "+"%char) as [->|H2]; simpl;
      [now rewrite N.add_0_r|].
    destruct (Ascii.eqb c " "%char); simpl; now rewrite ?N.add_0_r. }
  induction body as [|l body IH]; intros o n.
  - simpl. now rewrite !N.add_0_r.
  - cbn [fold_left filter]. rewrite Hstep, IH.
    destruct (fo l), (fn l); cbn [List.length];
      rewrite ?Nat2N.inj_succ; f_equal; lia.
Qed.

(** C1, on the code: the patch above satisfies the count invariant, and
    its repair does not.  The counting loop counts the single-space line
    as context, the second loop then drops it from the body: the rebuilt
    header declares 3 and 3 over a body of 2 old and 2 new lines. *)
Theorem repair_breaks_count_invariant :
  count_invariant blank_context_patch = true
  /\ exists out,
       repair_patch blank_context_patch = Ok out
       /\ out = text ["diff --git a/f b/f";
                      "--- a/f";
                      "+++ b/f";
                      "@@ -1,3 +1,3 @@";
                      " a";
                      "-b";
                      "+c";
                      ""]
       /\ hunks (split_lines out)
          = [("@@ -1,3 +1,3 @@", [" a"; "-b"; "+c"; ""])]
       /\ declared_counts "@@ -1,3 +1,3 @@" = Some (3, 3)%N
       /\ old_lines [" a"; "-b"; "+c"; ""] = 2%N
       /\ new_lines [" a"; "-b"; "+c"; ""] = 2%N
       /\ count_invariant out = false.
Proof.
  split; [vm_compute; reflexivity|].
  eexists. repeat split; vm_compute; reflexivity.
Qed.

(** ** What the repair does restore

    The header of a repaired hunk declares the counts of the body the
    hunk came with.  The body it is emitted with is that body without its
    single-space lines, so the counts are those of the emitted body as
    long as the text has no such line. *)

Lemma hunk_header_match_startswith (line : string) (m : hunk_groups) :
  hunk_header_match line = Some m -> startswith line "@@" = true.
Proof.
  unfold hunk_header_match.
  destruct (strip_prefix "@@ -" line) eqn:E; [intros _ | discriminate].
  destruct line as [|c1 [|c2 rest]]; cbn [strip_prefix] in E;
    try discriminate.
  - destruct (Ascii.eqb "@" c1); discriminate E.
  - destruct (Ascii.eqb_spec "@"%char c1); [subst | discriminate].
    destruct (Ascii.eqb_spec "@"%char c2); [subst | discriminate].
    destruct rest; reflexivity.
Qed.

Lemma in_hunk_no_header (line : string) :
  in_hunk line = true -> hunk_header_match line = None.
Proof.
  intros H. destruct (hunk_header_match line) eqn:E; [|reflexivity].
  apply hunk_header_match_startswith in E.
  unfold in_hunk in H. rewrite E in H. discriminate.
Qed.

Lemma repair_hunk_declares_counted_body (header : string)
    (body : list string) (m : hunk_groups) :
  hunk_header_match header = Some m ->
  exists h, repaired_hunk (header :: body) = h :: clean_body body
            /\ declared_counts h = Some (old_lines body, new_lines body)
            /\ in_hunk h = false.
Proof.
  intros Hm. unfold repaired_hunk. rewrite Hm.
  rewrite count_lines_spec.
  eexists. split; [reflexivity|]. split.
  - apply declared_counts_format.
  - reflexivity.
Qed.

Lemma clean_body_id (body : list string) :
  no_blank_context body -> clean_body body = body.
Proof.
  induction 1 as [|l body Hl _ IH]; simpl; [reflexivity|].
  rewrite Hl. simpl. now rewrite IH.
Qed.

Lemma after_hunk_at_boundary (lines : list string) :
  at_boundary (after_hunk lines).
Proof.
  induction lines as [|l ls IH]; simpl; [exact I|].
  destruct (in_hunk l) eqn:E; [exact IH | exact E].
Qed.

Lemma hunk_body_in_hunk (lines : list string) :
  Forall (fun l => in_hunk l = true) (hunk_body lines).
Proof.
  induction lines as [|l ls IH]; simpl; [constructor|].
  destruct (in_hunk l) eqn:E; constructor; assumption.
Qed.

Lemma hunk_body_app (body tail : list string) :
  Forall (fun l => in_hunk l = true) body -> at_boundary tail ->
  hunk_body (body ++ tail) = body.
Proof.
  induction 1 as [|l body Hl _ IH]; intros Ht; simpl.
  - destruct tail as [|t tail]; [reflexivity|]. simpl in *. now rewrite Ht.
  - rewrite Hl. now rewrite IH.
Qed.

Lemma hunks_app (body tail : list string) :
  Forall (fun l => in_hunk l = true) body ->
  hunks (body ++ tail) = hunks tail.
Proof.
  induction 1 as [|l body Hl _ IH]; simpl; [reflexivity|].
  now rewrite (in_hunk_no_header _ Hl).
Qed.

Lemma no_blank_context_after_hunk (lines : list string) :
  no_blank_context lines ->
  no_blank_context (hunk_body lines) /\ no_blank_context (after_hunk lines).
Proof.
  induction 1 as [|l ls Hl Hls IH]; simpl.
  - split; constructor.
  - destruct (in_hunk l).
    + destruct IH. split; [constructor|]; assumption.
    + split; constructor; assumption.
Qed.

(** The loop turns a boundary line into a boundary line. *)
Lemma repair_lines_at_boundary (lines : list string) :
  at_boundary lines -> at_boundary (repaired_lines lines).
Proof.
  destruct lines as [|line rest]; [intros _; exact I|].
  simpl. intros Hb. rewrite repair_lines_cons.
  destruct (startswith line "@@"); [|exact Hb].
  destruct (hunk_header_match line) as [m|] eqn:Hm; [|exact Hb].
  destruct (@repair_hunk_declares_counted_body line (hunk_body rest) m Hm)
    as (h & -> & _ & Hh).
  exact Hh.
Qed.

(** Every hunk of the repaired lines declares the counts of its body,
    when no line is a single space. *)
Lemma repair_lines_consistent (n : nat) :
  forall lines, List.length lines <= n ->
  no_blank_context lines ->
  forallb hunk_consistent (hunks (repaired_lines lines)) = true.
Proof.
  induction n as [|n IH]; intros lines Hlen Hnb.
  - destruct lines; [reflexivity | simpl in Hlen; lia].
  - destruct lines as [|line rest]; [reflexivity|].
    simpl in Hlen. rewrite repair_lines_cons.
    inversion Hnb as [|? ? Hline Hrest]; subst.
    assert (Hcopy : hunk_header_match line = None ->
              forallb hunk_consistent (hunks (line :: repaired_lines rest)) = true).
    { intros Hnone. simpl. rewrite Hnone. apply IH; [lia | assumption]. }
    destruct (startswith line "@@") eqn:Hat.
    + destruct (hunk_header_match line) as [m|] eqn:Hm; [|now apply Hcopy].
      destruct (@repair_hunk_declares_counted_body line (hunk_body rest) m Hm)
        as (h & -> & Hdecl & Hh).
      destruct (no_blank_context_after_hunk Hrest) as [Hbody Hafter].
      rewrite (clean_body_id Hbody).
      assert (Hmh : exists mh, hunk_header_match h = Some mh).
      { unfold declared_counts in Hdecl.
        destruct (hunk_header_match h); [eauto | discriminate]. }
      destruct Hmh as [mh Hmh].
      cbn [app hunks]. rewrite Hmh.
      rewrite hunk_body_app, hunks_app;
        try apply hunk_body_in_hunk;
        try (apply repair_lines_at_boundary, after_hunk_at_boundary).
      cbn [forallb]. apply andb_true_intro. split.
      * unfold hunk_consistent. cbn [fst snd]. rewrite Hdecl.
        now rewrite !N.eqb_refl.
      * apply IH; [|assumption].
        pose proof (after_hunk_length rest). lia.
    + apply Hcopy. destruct (hunk_header_match line) eqn:Hm; [|reflexivity].
      apply hunk_header_match_startswith in Hm. congruence.
Qed.

(** *** Lines without line feeds *)

Lemma lf_free_cons (c : ascii) (l : string) :
  lf_free (String c l) -> Ascii.eqb c LF = false /\ lf_free l.
Proof.
  unfold lf_free. simpl. destruct (Ascii.eqb c LF); [discriminate|].
  intros H. inversion H as [H']. now rewrite H'.
Qed.

Lemma lf_free_app (s t : string) : lf_free s -> lf_free t -> lf_free (s ++ t).
Proof.
  induction s as [|c s IH]; intros Hs Ht; [exact Ht|].
  destruct (lf_free_cons Hs) as [Hc Hs'].
  unfold lf_free in *. simpl. rewrite Hc. now rewrite IH.
Qed.

Lemma lf_free_until_lf (s : string) : lf_free (until_lf s).
Proof.
  unfold lf_free. induction s as [|c s IH]; simpl; [reflexivity|].
  destruct (Ascii.eqb c LF) eqn:E; [reflexivity|]. simpl. now rewrite E, IH.
Qed.

Lemma lf_free_str_of_int (n : N) : lf_free (str_of_int n).
Proof.
  unfold str_of_int, lf_free.
  induction (N.to_uint n); simpl; try reflexivity; now rewrite IHu.
Qed.

Lemma lf_free_format_header (a b c d : N) (context : string) :
  lf_free context -> lf_free (format_header a b c d context).
Proof.
  intros H. unfold format_header.
  repeat first [ apply lf_free_app | apply lf_free_str_of_int
               | exact H | reflexivity ].
Qed.

Lemma split_lines_lf_free (s : string) : Forall lf_free (split_lines s).
Proof.
  induction s as [|c s IH]; simpl.
  - constructor; [reflexivity | constructor].
  - destruct (Ascii.eqb c LF) eqn:E.
    + constructor; [reflexivity | exact IH].
    + destruct (split_lines s) as [|l ls].
      * constructor; [|constructor]. unfold lf_free. simpl. now rewrite E.
      * inversion IH as [|? ? Hl Hls]; subst. constructor; [|exact Hls].
        unfold lf_free in *. simpl. now rewrite E, Hl.
Qed.

Lemma split_lines_line (l : string) (t : string) :
  lf_free l -> split_lines (l ++ nl ++ t) = l :: split_lines t.
Proof.
  induction l as [|c l IH]; intros H; [reflexivity|].
  destruct (lf_free_cons H) as [Hc Hl].
  simpl. rewrite Hc. simpl in IH. now rewrite IH.
Qed.

Lemma split_lines_single (l : string) : lf_free l -> split_lines l = [l].
Proof.
  induction l as [|c l IH]; intros H; [reflexivity|].
  destruct (lf_free_cons H) as [Hc Hl].
  simpl. rewrite Hc. now rewrite IH.
Qed.

(** Splitting the joined lines gives the lines back. *)
Lemma split_lines_join_lines (ls : list string) :
  ls <> [] -> Forall lf_free ls -> split_lines (join_lines ls) = ls.
Proof.
  induction ls as [|l ls IH]; [contradiction | intros _ H].
  inversion H as [|? ? Hl Hls]; subst.
  destruct ls as [|l' ls].
  - now apply split_lines_single.
  - rewrite join_lines_cons by discriminate.
    rewrite split_lines_line by assumption.
    now rewrite IH by (discriminate || assumption).
Qed.

Lemma Forall_hunk_body_after_hunk (P : string -> Prop) (lines : list string) :
  Forall P lines -> Forall P (hunk_body lines) /\ Forall P (after_hunk lines).
Proof.
  induction 1 as [|l ls Hl Hls IH]; simpl.
  - split; constructor.
  - destruct (in_hunk l).
    + destruct IH. split; [constructor|]; assumption.
    + split; constructor; assumption.
Qed.

Lemma hunk_groups_until_lf (line : string) (m : hunk_groups) :
  hunk_header_match line = Some m -> exists s6, group5 m = until_lf s6.
Proof.
  unfold hunk_header_match. intros H.
  repeat match type of H with
         | context [match ?x with _ => _ end] => destruct x; try discriminate
         end.
  inversion H; subst. simpl. eauto.
Qed.

Lemma hunk_groups_lf_free (line : string) (m : hunk_groups) :
  hunk_header_match line = Some m -> lf_free (group5 m).
Proof.
  intros H. destruct (hunk_groups_until_lf _ H) as [s6 ->].
  apply lf_free_until_lf.
Qed.

(** A property of lines that rebuilding a header keeps is kept by the
    loop. *)
Section Preserved.
Variable P : string -> Prop.
Hypothesis rebuilt :
  forall header m a b c d,
    hunk_header_match header = Some m -> P header ->
    P (format_header a b c d (group5 m)).

Lemma repair_hunk_preserves (header : string) (body : list string) :
  Forall P (header :: body) -> Forall P (repaired_hunk (header :: body)).
Proof.
  intros H. unfold repaired_hunk.
  destruct (hunk_header_match header) as [m|] eqn:Hm; [|exact H].
  destruct (count_lines body) as [oc nc].
  inversion H as [|? ? Hh Hb]; subst. constructor.
  - now apply rebuilt with (header := header).
  - unfold clean_body. apply Forall_forall. intros x Hx.
    apply filter_In in Hx. destruct Hx as [Hx _].
    rewrite Forall_forall in Hb. now apply Hb.
Qed.

Lemma repair_lines_preserves (n : nat) :
  forall lines, List.length lines <= n ->
  Forall P lines -> Forall P (repaired_lines lines).
Proof.
  induction n as [|n IH]; intros lines Hlen H.
  - destruct lines; [simp repaired_lines; constructor | simpl in Hlen; lia].
  - destruct lines as [|line rest]; [simp repaired_lines; constructor|].
    simpl in Hlen. rewrite repair_lines_cons.
    inversion H as [|? ? Hl Hrest]; subst.
    assert (Hcopy : Forall P (line :: repaired_lines rest))
      by (constructor; [assumption | apply IH; [lia | assumption]]).
    destruct (startswith line "@@"); [|exact Hcopy].
    destruct (hunk_header_match line); [|exact Hcopy].
    destruct (Forall_hunk_body_after_hunk Hrest) as [Hb Ha].
    apply Forall_app. split.
    + apply repair_hunk_preserves. now constructor.
    + apply IH; [|assumption]. pose proof (after_hunk_length rest). lia.
Qed.

End Preserved.

Lemma repair_lines_lf_free (lines : list string) :
  Forall lf_free lines -> Forall lf_free (repaired_lines lines).
Proof.
  apply (@repair_lines_preserves lf_free) with (n := List.length lines);
    [|lia].
  intros header m a b c d Hm _.
  apply lf_free_format_header. eapply hunk_groups_lf_free; eassumption.
Qed.

(** The count invariant holds after the repair of a text none of whose
    lines is a single space. *)
Lemma repaired_patch_counts (d : string) :
  no_blank_context (normalised_lines d) ->
  count_invariant (repaired_patch d) = true.
Proof.
  intros Hnb. unfold count_invariant, repaired_patch.
  fold (normalised_lines d).
  rewrite split_lines_join_lines.
  - now apply (@repair_lines_consistent (List.length (normalised_lines d))).
  - unfold normalised_lines.
    destruct (ensure_newline_ends (replace_crlf d)) as [s ->].
    rewrite split_lines_append_nl.
    destruct (@repair_lines_snoc_empty (List.length (split_lines s))
                (split_lines s) (le_n _)) as (out & -> & _).
    destruct out; discriminate.
  - apply repair_lines_lf_free, split_lines_lf_free.
Qed.

(** *** Where a CRLF of the repaired text comes from

    The loop writes no CRLF of its own: a repaired text holds one only if
    the normalised text did, which is when the input has a CR before a
    CRLF or ends with a CR. *)

Lemma prefix_crlf (s : string) :
  String.prefix crlf s
  = match s with
    | String a (String b _) => Ascii.eqb a CR && Ascii.eqb b LF
    | _ => false
    end.
Proof.
  destruct s as [|a [|b r]]; try reflexivity; unfold crlf;
    cbn [String.prefix].
  - destruct (ascii_dec CR a); reflexivity.
  - destruct (ascii_dec CR a) as [<-|Ha].
    + destruct (ascii_dec LF b) as [<-|Hb].
      * destruct r; reflexivity.
      * destruct (Ascii.eqb_spec b LF); [congruence | reflexivity].
    + destruct (Ascii.eqb_spec a CR); [congruence | reflexivity].
Qed.

Lemma contains_crlf_cons (c : ascii) (s : string) :
  contains crlf (String c s)
  = (Ascii.eqb c CR && starts_with_lf s) || contains crlf s.
Proof.
  cbn [contains]. rewrite prefix_crlf.
  destruct s; [now rewrite andb_false_r | reflexivity].
Qed.

Lemma contains_crlf_line (l t : string) :
  lf_free l ->
  contains crlf (l ++ nl ++ t) = ends_with_cr l || contains crlf t.
Proof.
  induction l as [|c l IH]; intros H.
  - change ("" ++ nl ++ t) with (String LF t).
    now rewrite contains_crlf_cons.
  - destruct (lf_free_cons H) as [Hc Hl].
    change (String c l ++ nl ++ t) with (String c (l ++ nl ++ t)).
    rewrite contains_crlf_cons, IH by assumption.
    destruct l as [|d l].
    + simpl. now rewrite andb_true_r.
    + destruct (lf_free_cons Hl) as [Hd _].
      simpl starts_with_lf. rewrite Hd, andb_false_r. reflexivity.
Qed.

Lemma contains_crlf_lf_free (l : string) : lf_free l -> contains crlf l = false.
Proof.
  induction l as [|c l IH]; intros H; [reflexivity|].
  destruct (lf_free_cons H) as [Hc Hl].
  rewrite contains_crlf_cons, IH by assumption.
  destruct l as [|d l]; simpl; [now rewrite andb_false_r|].
  destruct (lf_free_cons Hl) as [Hd _]. now rewrite Hd, andb_false_r.
Qed.

(** A CRLF of a joined text is a line, not the last, that ends with CR. *)
Lemma contains_crlf_join_lines (ls : list string) :
  Forall lf_free ls ->
  contains crlf (join_lines ls) = existsb ends_with_cr (removelast ls).
Proof.
  induction 1 as [|l ls Hl Hls IH]; [reflexivity|].
  destruct ls as [|l' ls].
  - simpl. now apply contains_crlf_lf_free.
  - rewrite join_lines_cons by discriminate.
    rewrite contains_crlf_line by assumption.
    rewrite IH. reflexivity.
Qed.

Lemma join_lines_split_lines (s : string) : join_lines (split_lines s) = s.
Proof.
  induction s as [|c s IH]; [reflexivity|].
  simpl. destruct (Ascii.eqb_spec c LF) as [->|Hc].
  - rewrite join_lines_cons by apply split_lines_nonempty.
    now rewrite IH.
  - pose proof (split_lines_nonempty s) as Hne.
    destruct (split_lines s) as [|l ls]; [contradiction|].
    destruct ls as [|l' ls].
    + simpl in *. now rewrite IH.
    + rewrite join_lines_cons by discriminate.
      rewrite join_lines_cons in IH by discriminate.
      now rewrite <- IH.
Qed.

Lemma ends_with_cr_app (s t : string) :
  ends_with_cr (s ++ t) = if is_empty t then ends_with_cr s else ends_with_cr t.
Proof.
  induction s as [|c s IH]; simpl.
  - destruct t; reflexivity.
  - destruct s as [|d s]; simpl in *.
    + destruct t; reflexivity.
    + exact IH.
Qed.

Lemma strip_prefix_app (p s r : string) :
  strip_prefix p s = Some r -> s = p ++ r.
Proof.
  revert s. induction p as [|a p IH]; intros s H; simpl in H.
  - now inversion H.
  - destruct s as [|b s]; [discriminate|].
    destruct (Ascii.eqb_spec a b) as [->|]; [|discriminate].
    simpl. now rewrite (IH _ H).
Qed.

Lemma span_digits_app (s : string) :
  s = fst (span_digits s) ++ snd (span_digits s).
Proof.
  induction s as [|c s IH]; [reflexivity|].
  simpl. destruct (is_digit c); [|reflexivity].
  destruct (span_digits s) as [ds tl]. simpl in *. now rewrite <- IH.
Qed.

Lemma opt_comma_app (s : string) : exists k, s = k ++ opt_comma s.
Proof.
  destruct s as [|c s]; [now exists ""|].
  simpl. destruct (Ascii.eqb c ","%char).
  - now exists (String c "").
  - now exists "".
Qed.

(** The last group of a match is the end of the line, up to its first
    line feed. *)
Lemma hunk_groups_suffix (line : string) (m : hunk_groups) :
  hunk_header_match line = Some m ->
  exists pre s6, line = pre ++ s6 /\ group5 m = until_lf s6.
Proof.
  unfold hunk_header_match. intros H.
  destruct (strip_prefix "@@ -" line) as [s0|] eqn:E0; [|discriminate].
  apply strip_prefix_app in E0.
  pose proof (span_digits_app s0) as E1.
  destruct (span_digits s0) as [g1 s1]. cbn [fst snd] in E1.
  destruct (is_empty g1); [discriminate|].
  destruct (opt_comma_app s1) as [k1 Ek1].
  pose proof (span_digits_app (opt_comma s1)) as E2.
  destruct (span_digits (opt_comma s1)) as [g2 s2]. cbn [fst snd] in E2.
  destruct (strip_prefix " +" s2) as [s3|] eqn:E3; [|discriminate].
  apply strip_prefix_app in E3.
  pose proof (span_digits_app s3) as E4.
  destruct (span_digits s3) as [g3 s4]. cbn [fst snd] in E4.
  destruct (is_empty g3); [discriminate|].
  destruct (opt_comma_app s4) as [k2 Ek2].
  pose proof (span_digits_app (opt_comma s4)) as E5.
  destruct (span_digits (opt_comma s4)) as [g4 s5]. cbn [fst snd] in E5.
  destruct (strip_prefix " @@" s5) as [s6|] eqn:E6; [|discriminate].
  apply strip_prefix_app in E6.
  inversion H; subst m; clear H. cbn [group5].
  exists ("@@ -" ++ g1 ++ k1 ++ g2 ++ " +" ++ g3 ++ k2 ++ g4 ++ " @@"), s6.
  split; [|reflexivity].
  rewrite E0, E1, Ek1, E2, E3, E4, Ek2, E5, E6 at 1.
  now rewrite !append_assoc.
Qed.

Lemma lf_free_app_inv (s t : string) : lf_free (s ++ t) -> lf_free t.
Proof.
  induction s as [|c s IH]; intros H; [exact H|].
  apply IH. simpl in H. now destruct (lf_free_cons H).
Qed.

Lemma format_header_context (a b c d : N) (context : string) :
  format_header a b c d context = format_header a b c d "" ++ context.
Proof. unfold format_header. now rewrite !append_assoc. Qed.

Lemma repair_lines_plain_end (lines : list string) :
  Forall plain_end lines -> Forall plain_end (repaired_lines lines).
Proof.
  apply (@repair_lines_preserves plain_end) with (n := List.length lines);
    [|lia].
  intros header m a b c d Hm [Hlf Hcr].
  destruct (hunk_groups_suffix _ Hm) as (pre & s6 & -> & E).
  pose proof (lf_free_app_inv _ _ Hlf) as Hs6.
  rewrite E, Hs6. split.
  - now apply lf_free_format_header.
  - rewrite format_header_context, ends_with_cr_app.
    rewrite ends_with_cr_app in Hcr.
    destruct (is_empty s6); [|exact Hcr].
    assert (Eh : format_header a b c d ""
                 = ("@@ -" ++ str_of_int a ++ "," ++ str_of_int b ++ " +"
                      ++ str_of_int c ++ "," ++ str_of_int d) ++ " @@")
      by (unfold format_header; now rewrite !append_assoc).
    rewrite Eh. now rewrite ends_with_cr_app.
Qed.

(** The loop writes no CRLF of its own. *)
Lemma repair_patch_no_new_crlf (d : string) :
  contains crlf (ensure_newline (replace_crlf d)) = false ->
  contains crlf (repaired_patch d) = false.
Proof.
  intros H. unfold repaired_patch.
  rewrite <- (join_lines_split_lines (ensure_newline (replace_crlf d))) in H.
  destruct (ensure_newline_ends (replace_crlf d)) as [s E].
  rewrite E in *. rewrite split_lines_append_nl in *.
  rewrite contains_crlf_join_lines in H
    by (apply Forall_app; split;
        [apply split_lines_lf_free | repeat constructor]).
  rewrite removelast_last in H.
  assert (Hin : Forall plain_end (split_lines s ++ [""])).
  { apply Forall_app. split.
    - pose proof (split_lines_lf_free s) as Hlf.
      rewrite Forall_forall in *. intros l Hl. split; [now apply Hlf|].
      destruct (ends_with_cr l) eqn:El; [|reflexivity].
      assert (existsb ends_with_cr (split_lines s) = true)
        by (apply existsb_exists; eauto).
      congruence.
    - repeat constructor. }
  apply repair_lines_plain_end in Hin.
  destruct (@repair_lines_snoc_empty (List.length (split_lines s))
              (split_lines s) (le_n _)) as (out & Eout & _).
  rewrite Eout in *.
  apply Forall_app in Hin. destruct Hin as [Hout _].
  rewrite contains_crlf_join_lines.
  - rewrite removelast_last.
    destruct (existsb ends_with_cr out) eqn:Ex; [|reflexivity].
    apply existsb_exists in Ex. destruct Ex as (l & Hl & Hcr).
    rewrite Forall_forall in Hout. destruct (Hout l Hl) as [_ Hno].
    congruence.
  - apply Forall_app. split; [|repeat constructor].
    eapply Forall_impl; [|exact Hout]. now intros l [Hl _].
Qed.

(** The replacement leaves a CRLF only where a CR stood before one. *)
Lemma contains_crcrlf_cons (c : ascii) (s : string) :
  contains (cr ++ crlf) (String c s) = false ->
  contains (cr ++ crlf) s = false
  /\ (Ascii.eqb c CR = true ->
      match s with
      | String a (String b _) => Ascii.eqb a CR && Ascii.eqb b LF = false
      | _ => True
      end).
Proof.
  cbn [contains]. intros H. apply orb_false_iff in H. destruct H as [Hp Hc].
  split; [exact Hc|]. intros Hcr. apply Ascii.eqb_eq in Hcr. subst c.
  destruct s as [|a [|b r]]; try exact I.
  unfold cr, crlf in Hp. cbn [append String.prefix] in Hp.
  destruct (ascii_dec CR CR) as [_|Hne]; [|contradiction].
  destruct (Ascii.eqb_spec a CR) as [->|Ha]; [|reflexivity].
  destruct (ascii_dec CR CR) as [_|Hne]; [|contradiction].
  destruct (Ascii.eqb_spec b LF) as [->|Hb]; [|reflexivity].
  destruct (ascii_dec LF LF) as [_|Hne]; [|contradiction].
  destruct r; discriminate Hp.
Qed.

Lemma replace_crlf_cons (c d : ascii) (rest : string) :
  replace_crlf (String c (String d rest))
  = if Ascii.eqb c CR && Ascii.eqb d LF then String LF (replace_crlf rest)
    else String c (replace_crlf (String d rest)).
Proof. reflexivity. Qed.

Lemma replace_crlf_nonempty (c : ascii) (s : string) :
  replace_crlf (String c s) <> "".
Proof.
  destruct s as [|d s]; simpl; [discriminate|].
  destruct (Ascii.eqb c CR && Ascii.eqb d LF); discriminate.
Qed.

Lemma replace_crlf_clean (n : nat) :
  forall d, String.length d <= n ->
  contains (cr ++ crlf) d = false ->
  contains crlf (replace_crlf d) = false.
Proof.
  induction n as [|n IH]; intros d Hlen H.
  - destruct d; [reflexivity | simpl in Hlen; lia].
  - destruct d as [|c [|d' rest]]; try reflexivity.
    + cbn [replace_crlf]. rewrite contains_crlf_cons. simpl.
      now rewrite andb_false_r.
    + simpl in Hlen. destruct (contains_crcrlf_cons _ _ H) as [Hrest Hhead].
      rewrite replace_crlf_cons.
      destruct (Ascii.eqb c CR && Ascii.eqb d' LF) eqn:Epair.
      * destruct (contains_crcrlf_cons _ _ Hrest) as [Hrest' _].
        rewrite contains_crlf_cons. simpl andb.
        apply IH; [lia | assumption].
      * rewrite contains_crlf_cons.
        rewrite (IH (String d' rest)) by (simpl; lia || assumption).
        rewrite orb_false_r.
        destruct (Ascii.eqb c CR) eqn:Ec; [|reflexivity].
        simpl in Epair. specialize (Hhead eq_refl).
        destruct rest as [|e r].
        -- simpl. now rewrite Epair.
        -- rewrite replace_crlf_cons, Hhead. simpl. now rewrite Epair.
Qed.

Lemma replace_crlf_ends_with_cr (n : nat) :
  forall d, String.length d <= n ->
  ends_with_cr (replace_crlf d) = ends_with_cr d.
Proof.
  induction n as [|n IH]; intros d Hlen.
  - destruct d; [reflexivity | simpl in Hlen; lia].
  - destruct d as [|c [|d' rest]]; try reflexivity.
    simpl in Hlen. rewrite replace_crlf_cons.
    destruct (Ascii.eqb c CR && Ascii.eqb d' LF) eqn:Epair.
    + apply andb_true_iff in Epair. destruct Epair as [Ec Ed].
      apply Ascii.eqb_eq in Ed. subst d'.
      destruct rest as [|e r]; [reflexivity|].
      pose proof (@replace_crlf_nonempty e r) as Hne.
      specialize (IH (String e r) ltac:(simpl in *; lia)).
      destruct (replace_crlf (String e r)) eqn:Er; [contradiction|].
      exact IH.
    + pose proof (@replace_crlf_nonempty d' rest) as Hne.
      specialize (IH (String d' rest) ltac:(simpl in *; lia)).
      destruct (replace_crlf (String d' rest)) eqn:Er; [contradiction|].
      exact IH.
Qed.

Lemma contains_crlf_app_nl (p : string) :
  contains crlf (p ++ nl) = contains crlf p || ends_with_cr p.
Proof.
  induction p as [|c p IH]; [reflexivity|].
  change (String c p ++ nl) with (String c (p ++ nl)).
  rewrite !contains_crlf_cons, IH.
  destruct p as [|e r].
  - simpl. now rewrite andb_true_r, andb_false_r, !orb_false_r.
  - simpl starts_with_lf. cbn [ends_with_cr]. now rewrite orb_assoc.
Qed.

(** Once normalised, a text that had no CR before a CRLF and no CR at its
    end has no CRLF. *)
Lemma normalised_without_crlf (d : string) :
  contains (cr ++ crlf) d = false -> ends_with_cr d = false ->
  contains crlf (ensure_newline (replace_crlf d)) = false.
Proof.
  intros Hd He.
  pose proof (@replace_crlf_clean (String.length d) d (le_n _) Hd) as Hc.
  pose proof (@replace_crlf_ends_with_cr (String.length d) d (le_n _)) as Hr.
  unfold ensure_newline. destruct (endswith (replace_crlf d) nl); [exact Hc|].
  now rewrite contains_crlf_app_nl, Hc, Hr, He.
Qed.

(** The repair removes every CRLF of such a text. *)
Lemma repaired_patch_without_crlf (d : string) :
  contains (cr ++ crlf) d = false -> ends_with_cr d = false ->
  contains crlf (repaired_patch d) = false.
Proof.
  intros Hd He. now apply repair_patch_no_new_crlf, normalised_without_crlf.
Qed.

(** *** A second repair of a text the first one left consistent *)

Lemma after_hunk_app (body tail : list string) :
  Forall (fun l => in_hunk l = true) body -> at_boundary tail ->
  after_hunk (body ++ tail) = tail.
Proof.
  induction 1 as [|l body Hl _ IH]; intros Ht; simpl.
  - destruct tail as [|t tail]; [reflexivity|]. simpl in *. now rewrite Ht.
  - rewrite Hl. now apply IH.
Qed.

(** A rebuilt header is rebuilt as itself over the same body. *)
Lemma repair_hunk_rebuilt (a c : N) (context : string) (body : list string) :
  let h := format_header a (fst (count_lines body)) c (snd (count_lines body))
             (until_lf context) in
  repaired_hunk (h :: body) = h :: clean_body body.
Proof.
  intros h. unfold repaired_hunk. subst h.
  rewrite hunk_header_match_format. cbn [group1 group3 group5].
  rewrite !int_of_digits_str_of_int.
  destruct (count_lines body) as [oc nc]. cbn [fst snd].
  now rewrite (lf_free_until_lf context).
Qed.

Lemma repair_lines_idempotent (n : nat) :
  forall lines, List.length lines <= n ->
  no_blank_context lines ->
  repaired_lines (repaired_lines lines) = repaired_lines lines.
Proof.
  induction n as [|n IH]; intros lines Hlen Hnb.
  - destruct lines; [reflexivity | simpl in Hlen; lia].
  - destruct lines as [|line rest]; [reflexivity|].
    simpl in Hlen. rewrite repair_lines_cons.
    inversion Hnb as [|? ? Hline Hrest]; subst.
    destruct (startswith line "@@") eqn:Hat.
    + destruct (hunk_header_match line) as [m|] eqn:Hm.
      * destruct (no_blank_context_after_hunk Hrest) as [Hbody Hafter].
        unfold repaired_hunk at 1 2. rewrite Hm.
        destruct (hunk_groups_until_lf _ Hm) as [s6 ->].
        rewrite (surjective_pairing (count_lines (hunk_body rest))).
        rewrite (clean_body_id Hbody).
        cbn [app]. rewrite repair_lines_cons.
        change (startswith (format_header _ _ _ _ _) "@@") with true.
        cbv iota. rewrite hunk_header_match_format.
        rewrite hunk_body_app, after_hunk_app;
          try apply hunk_body_in_hunk;
          try (apply repair_lines_at_boundary, after_hunk_at_boundary).
        rewrite repair_hunk_rebuilt, (clean_body_id Hbody).
        cbn [app]. f_equal. f_equal.
        apply IH; [|assumption].
        pose proof (after_hunk_length rest). lia.
      * rewrite repair_lines_cons, Hat, Hm. f_equal.
        apply IH; [lia | assumption].
    + rewrite repair_lines_cons, Hat. f_equal.
      apply IH; [lia | assumption].
Qed.

Lemma replace_crlf_id (s : string) :
  contains crlf s = false -> replace_crlf s = s.
Proof.
  induction s as [|c s IH]; [reflexivity|].
  intros H. cbn [contains] in H. apply orb_false_iff in H.
  destruct H as [Hp Hc].
  cbn [replace_crlf]. destruct s as [|d s]; [reflexivity|].
  destruct (Ascii.eqb_spec c CR) as [->|Hc1]; simpl andb.
  - destruct (Ascii.eqb_spec d LF) as [->|Hd].
    + exfalso. destruct s; discriminate Hp.
    + now rewrite IH.
  - now rewrite IH.
Qed.

(** A second repair changes nothing when the text has no line that is a
    single space and its first repair has no CRLF left. *)
Lemma repair_patch_idempotent_when_consistent (d : string) :
  no_blank_context (normalised_lines d) ->
  contains crlf (repaired_patch d) = false ->
  repaired_patch (repaired_patch d) = repaired_patch d.
Proof.
  intros Hnb Hcr.
  unfold repaired_patch at 1. rewrite (replace_crlf_id _ Hcr).
  unfold ensure_newline.
  destruct (repair_patch_shape d) as [r Hr].
  assert (He : endswith (repaired_patch d) nl = true)
    by (rewrite Hr; apply endswith_append_nl).
  rewrite He. unfold repaired_patch. fold (normalised_lines d).
  rewrite split_lines_join_lines.
  - now rewrite (@repair_lines_idempotent (List.length (normalised_lines d))).
  - unfold normalised_lines.
    destruct (ensure_newline_ends (replace_crlf d)) as [s ->].
    rewrite split_lines_append_nl.
    destruct (@repair_lines_snoc_empty (List.length (split_lines s))
                (split_lines s) (le_n _)) as (out & -> & _).
    destruct out; discriminate.
  - apply repair_lines_lf_free, split_lines_lf_free.
Qed.

(** The three things that stand in the way of idempotence: a line that
    is a single space, a CR before a CRLF, a CR at the end.  Without them
    a second repair changes nothing. *)
Lemma repaired_patch_idempotent_on_clean_text (d : string) :
  no_blank_context (normalised_lines d) ->
  contains (cr ++ crlf) d = false -> ends_with_cr d = false ->
  repaired_patch (repaired_patch d) = repaired_patch d.
Proof.
  intros Hnb Hd He. apply repair_patch_idempotent_when_consistent;
    [assumption | now apply repair_patch_no_new_crlf, normalised_without_crlf].
Qed.

(** ** Idempotence *)

(** C2, on the code: a second repair of the patch above recounts the body
    the first one emitted and rewrites the header again. *)
Theorem repair_patch_not_idempotent :
  exists once twice,
    repair_patch blank_context_patch = Ok once
    /\ repair_patch once = Ok twice
    /\ twice = text ["diff --git a/f b/f";
                     "--- a/f";
                     "+++ b/f";
                     "@@ -1,2 +1,2 @@";
                     " a";
                     "-b";
                     "+c";
                     ""]
    /\ twice <> once.
Proof.
  do 2 eexists.
  split; [vm_compute; reflexivity|].
  split; [vm_compute; reflexivity|].
  split; [vm_compute; reflexivity | vm_compute; discriminate].
Qed.

(** ** CRLF *)

(** C6, on the code: the patch above contains a CRLF, [validate_patch]
    reports it, and the repaired text contains one again.  The
    replacement is a single pass, and the CR before the pair it replaces
    meets the line feed it writes. *)
Theorem repair_leaves_crlf :
  contains crlf double_cr_patch = true
  /\ In issue_crlf (issues (validate_patch double_cr_patch))
  /\ valid (validate_patch double_cr_patch) = false
  /\ exists out,
       repair_patch double_cr_patch = Ok out
       /\ out = "diff --git a/f b/f" ++ crlf
       /\ contains crlf out = true.
Proof.
  split; [vm_compute; reflexivity|].
  split; [vm_compute; tauto|].
  split; [vm_compute; reflexivity|].
  eexists. repeat split; vm_compute; reflexivity.
Qed.

End PatchValidatorSpec.

(** * Properties of the repository manager *)

Module RepositoryManagerSpec.
Import PyStr RepositoryManager GitAssumptions.
Local Open Scope string_scope.

(** One step of symbolic execution: split on the next oracle answer. *)
Ltac run_step :=
  match goal with
  | H : _ = _ |- _ => discriminate H
  | H : (_, _, _) = (_, _, _) |- _ => inversion H; subst; clear H
  | H : Some _ = Some _ |- _ => inversion H; subst; clear H
  | H : Raise _ = Raise _ |- _ => inversion H; subst; clear H
  | H : Return _ = Return _ |- _ => inversion H; subst; clear H
  | H : context [match ?x with _ => _ end] |- _ =>
      destruct x eqn:?; simpl in H
  end.

Ltac run_all := repeat run_step.

(** Exit codes: what the tests on them say, and their use in the goal. *)
Ltac norm_codes :=
  repeat match goal with
         | E : negb (Z.eqb _ 0) = false |- _ =>
             apply negb_false_iff, Z.eqb_eq in E; subst
         | E : negb (Z.eqb _ 0) = true |- _ => apply negb_true_iff in E
         | E : Z.eqb _ 0 = true |- _ => apply Z.eqb_eq in E; subst
         end.



Section Properties.
Variable os : OS.

(** ** [get_repo] *)

(** The cache-hit branch: the slot is returned as it is, and nothing is
    run. *)
Lemma get_repo_cache_hit (cache_dir repo base_commit : string) (w : World os) :
  path_exists os w (repo_path cache_dir repo base_commit) = true ->
  get_repo os cache_dir repo base_commit w
  = (w, [], Return (repo_path cache_dir repo base_commit)).
Proof.
  intros H. unfold get_repo, bind, os_path_exists, ret. now rewrite H.
Qed.


Lemma get_repo_miss (cache_dir repo base_commit : string) (w : World os) :
  path_exists os w (repo_path cache_dir repo base_commit) = false ->
  get_repo os cache_dir repo base_commit w
  = (os_makedirs os (dirname (repo_path cache_dir repo base_commit)) ;;;
     clone_phase os ("https://github.com/" ++ repo ++ ".git")
                 (repo_path cache_dir repo base_commit) ;;;
     checkout_phase os base_commit (repo_path cache_dir repo base_commit) ;;;
     ret (repo_path cache_dir repo base_commit)) w.
Proof.
  intros H. unfold get_repo at 1. unfold bind at 1, os_path_exists at 1.
  rewrite H.
  match goal with
  | |- match ?t with _ => _ end = ?u => change u with t; destruct t as [[? ?] ?]
  end.
  reflexivity.
Qed.

(** A clone phase that returns has completed exactly one clone, and the
    slot exists. *)
Lemma clone_phase_returns (repo_url p : string) (w w' : World os)
    (l : list event) (r : completed_process) :
  clone_creates_slot os ->
  clone_phase os repo_url p w = (w', l, Return r) ->
  path_exists os w' p = true /\ clones_done l = 1.
Proof.
  intros Hclone H.
  unfold clone_phase, try_except, subprocess_run, completed in H. simpl in H.
  run_all; norm_codes.
  - split; [|reflexivity]. eapply Hclone. left. eassumption.
  - split; [|reflexivity]. eapply Hclone. right. eassumption.
Qed.


Lemma clones_done_app (l1 l2 : list event) :
  clones_done (l1 ++ l2) = clones_done l1 + clones_done l2.
Proof. unfold clones_done. now rewrite filter_app, length_app. Qed.

Lemma keep_cwd_step (cmd : command) (p : string) (w w' : World os)
    (c : completion) :
  commands_keep_cwd os -> runs_in_slot cmd p ->
  path_exists os w p = true -> run os w cmd = (w', c) ->
  path_exists os w' p = true.
Proof.
  intros Hkeep Hcwd Hex Hrun.
  specialize (Hkeep w cmd p Hcwd Hex). now rewrite Hrun in Hkeep.
Qed.

(** The checkout phase runs in the slot: it clones nothing and the slot
    is still there when it ends, however it ends. *)
Lemma checkout_phase_keeps (base_commit p : string) (w w' : World os)
    (l : list event) (r : outcome completed_process) :
  commands_keep_cwd os ->
  path_exists os w p = true ->
  checkout_phase os base_commit p w = (w', l, r) ->
  path_exists os w' p = true /\ clones_done l = 0.
Proof.
  intros Hkeep Hex H.
  unfold checkout_phase, try_except, bind, subprocess_run, completed in H. simpl in H.
  run_all; (split; [|reflexivity]);
    repeat match goal with
           | R : run os ?w0 ?cmd = (?w1, _) |- _ =>
               lazymatch goal with
               | _ : path_exists os w1 p = true |- _ => fail
               | K : path_exists os w0 p = true |- _ =>
                   pose proof (@keep_cwd_step cmd p w0 w1 _ Hkeep
                                 ltac:(first [ left; eexists; reflexivity
                                             | right; reflexivity ]) K R)
               end
           end; assumption.
Qed.


(** A call that misses the cache and returns: one clone completed, and
    the slot exists. *)
Lemma get_repo_miss_returns (cache_dir repo base_commit : string)
    (w w1 : World os) (l1 : list event) (q : string) :
  clone_creates_slot os -> commands_keep_cwd os ->
  path_exists os w (repo_path cache_dir repo base_commit) = false ->
  get_repo os cache_dir repo base_commit w = (w1, l1, Return q) ->
  q = repo_path cache_dir repo base_commit
  /\ path_exists os w1 q = true
  /\ clones_done l1 = 1.
Proof.
  intros Hclone Hkeep Hmiss H.
  rewrite get_repo_miss in H by assumption.
  unfold bind, os_makedirs, ret in H.
  run_all.
  match goal with
  | C : clone_phase _ _ _ _ = _, K : checkout_phase _ _ _ _ = _ |- _ =>
      destruct (@clone_phase_returns _ _ _ _ _ _ Hclone C) as [Hex Hone];
      destruct (@checkout_phase_keeps _ _ _ _ _ _ Hkeep Hex K) as [Hex' Hzero]
  end.
  repeat split; [assumption|].
  rewrite app_nil_r. simpl. rewrite !clones_done_app, Hone, Hzero. reflexivity.
Qed.

(** Every call that returns, returns the slot of the pair, which exists
    from then on. *)
Lemma get_repo_returns (cache_dir repo base_commit : string)
    (w w1 : World os) (l1 : list event) (q : string) :
  clone_creates_slot os -> commands_keep_cwd os ->
  get_repo os cache_dir repo base_commit w = (w1, l1, Return q) ->
  q = repo_path cache_dir repo base_commit
  /\ path_exists os w1 q = true
  /\ clones_done l1
     = if path_exists os w (repo_path cache_dir repo base_commit)
       then 0 else 1.
Proof.
  intros Hclone Hkeep H.
  destruct (path_exists os w (repo_path cache_dir repo base_commit)) eqn:E.
  - rewrite get_repo_cache_hit in H by assumption.
    inversion H; subst. auto.
  - eapply get_repo_miss_returns; eassumption.
Qed.


(** C8.  The path [get_repo] returns is [repo_path], a function of the
    cache directory and the pair [(repo, base_commit)] alone.  When a call
    has returned, a second call with the same pair on the same cache
    returns the same path and runs no command at all; the first call has
    completed one clone if the slot was missing and none if it was there.
    ([git clone] is assumed to create its destination when it succeeds,
    and a command run inside the slot not to delete it.) *)
Theorem get_repo_cache_idempotent (cache_dir repo base_commit : string)
    (w w1 : World os) (l1 : list event) (q : string) :
  clone_creates_slot os -> commands_keep_cwd os ->
  get_repo os cache_dir repo base_commit w = (w1, l1, Return q) ->
  q = repo_path cache_dir repo base_commit
  /\ get_repo os cache_dir repo base_commit w1 = (w1, [], Return q)
  /\ clones_done l1 = (if path_exists os w q then 0 else 1).
Proof.
  intros Hclone Hkeep H.
  destruct (get_repo_returns _ _ _ _ Hclone Hkeep H) as (-> & Hex & Hn).
  repeat split; [|exact Hn].
  now apply get_repo_cache_hit.
Qed.



(** ** [apply_patch] *)

(** C3, amended.  [apply_patch] returns a result with [success = false]
    in two ways.  When the dry run fails, the log holds the
    [git apply --check] command alone, so [git apply] was never run,
    [error] is the standard error of the dry run as text mode decodes it,
    and the working tree at [repo_path] is what it was before the call.
    When the dry run passes and [git apply] then fails, [error] is the
    decoded standard error of [git apply], and nothing is rolled back:
    [git apply] started from the tree of before the call, and the tree
    after the call is the one it left, so that tree is unchanged exactly
    as far as [git apply] is all or nothing.  ([git apply --check] is
    assumed to write nothing and the patch file to lie outside the
    working tree.) *)
Theorem apply_patch_failure_keeps_checked_tree (repo_path patch : string)
    (w w' : World os) (l : list event) (r : apply_result) :
  let dry_run f := {| argv := ["git"; "apply"; "--check"; f];
                      cwd := Some repo_path; timeout := None |} in
  let application f := {| argv := ["git"; "apply"; f];
                          cwd := Some repo_path; timeout := None |} in
  patch_file_outside os repo_path ->
  check_is_dry_run os repo_path ->
  apply_patch os repo_path patch w = (w', l, Return r) ->
  success r = false ->
  ((exists f rc out err msg,
      rc <> 0%Z
      /\ l = [(dry_run f, Exited rc out err)]
      /\ text_of os err = Some msg
      /\ error r = Some msg
      /\ worktree os w' repo_path = worktree os w repo_path)
   \/ (exists f out0 err0 rc out raw msg w0 wm,
         rc <> 0%Z
         /\ l = [(dry_run f, Exited 0 out0 err0);
                 (application f, Exited rc out raw)]
         /\ bytes_decode os raw = Some msg
         /\ error r = Some msg
         /\ worktree os w0 repo_path = worktree os w repo_path
         /\ run os w0 (application f) = (wm, Exited rc out raw)
         /\ worktree os w' repo_path = worktree os wm repo_path))
  /\ (apply_is_atomic os repo_path ->
      worktree os w' repo_path = worktree os w repo_path).
Proof.
  cbv zeta. intros Htmp Hdry H Hfail.
  unfold apply_patch, bind, write_temporary_file in H.
  destruct (named_temporary_file os w ".patch") as [[wt f]|] eqn:Etmp;
    [|discriminate].
  destruct (Htmp _ _ _ _ Etmp) as (Hwt & Hwrite & Hrm).
  specialize (Hwrite wt patch).
  destruct (write_text os wt f patch) as [w0 wr] eqn:Ewr.
  cbn [fst] in Hwrite.
  destruct wr; try discriminate.
  assert (Hw0 : worktree os w0 repo_path = worktree os w repo_path)
    by (now rewrite Hwrite).
  unfold try_finally, try_except, bind, subprocess_run, completed,
    decode_stderr, text_of, os_path_exists, os_remove, ret, raise in H.
  pose proof (Hdry w0 f) as Hcheck.
  destruct (run os w0 (git_apply_check f repo_path)) as [wc cc] eqn:Ec.
  simpl in Hcheck, H.
  assert (Hwc : worktree os wc repo_path = worktree os w repo_path)
    by (rewrite Hcheck; exact Hw0).
  destruct cc as [rc out err| |]; simpl in H; [|run_all|run_all].
  destruct (locale_decode os out) as [out'|] eqn:Eout; simpl in H;
    [|run_all].
  destruct (locale_decode os err) as [err'|] eqn:Eerr; simpl in H;
    [|run_all].
  destruct (Z.eqb_spec rc 0) as [->|Hrc]; simpl in H.
  - (* the dry run passed *)
    destruct (run os wc (git_apply f repo_path)) as [wm cm] eqn:Em.
    simpl in H.
    destruct cm as [rc' out2 raw| |]; simpl in H; [|run_all|run_all].
    destruct (Z.eqb_spec rc' 0) as [->|Hrc']; simpl in H.
    { run_all; simpl in Hfail; discriminate. }
    destruct (bytes_decode os raw) as [msg|] eqn:Ed; simpl in H;
      [|run_all].
    assert (Hend : worktree os w' repo_path = worktree os wm repo_path
                   /\ l = [(git_apply_check f repo_path, Exited 0 out err);
                           (git_apply f repo_path, Exited rc' out2 raw)]
                   /\ error r = Some msg).
    { destruct (path_exists os wm f) eqn:Ex.
      - destruct (remove os wm f) as [wf|] eqn:Er; simpl in H;
          [|discriminate].
        inversion H; subst. split; [exact (Hrm _ _ Er) | auto].
      - inversion H; subst. auto. }
    destruct Hend as (Hw' & Hl & He). split.
    + right. exists f, out, err, rc', out2, raw, msg, wc, wm.
      repeat split; assumption.
    + intros Hatomic.
      now rewrite Hw', (Hatomic _ _ _ _ _ _ Em Hrc').
  - (* the dry run failed *)
    assert (Hend : worktree os w' repo_path = worktree os wc repo_path
                   /\ l = [(git_apply_check f repo_path, Exited rc out err)]
                   /\ error r = Some (translate_newlines err')).
    { destruct (path_exists os wc f) eqn:Ex.
      - destruct (remove os wc f) as [wf|] eqn:Er; simpl in H;
          [|discriminate].
        inversion H; subst. split; [exact (Hrm _ _ Er) | auto].
      - inversion H; subst. auto. }
    destruct Hend as (Hw' & Hl & He).
    assert (Hsame : worktree os w' repo_path = worktree os w repo_path)
      by (now rewrite Hw').
    split; [|intros _; exact Hsame].
    left. exists f, rc, out, err, (translate_newlines err').
    repeat split; try assumption.
    unfold text_of. now rewrite Eerr.
Qed.

(** ** [reset_repo] *)

(** C9.  [reset_repo] runs [git reset --hard HEAD] and then
    [git clean -fdx], both in the repository, in that order and nothing
    else.  When the first command fails its error is raised and the
    second is not run; when the second fails its error is raised; the
    call returns only when both have exited with 0.  With a [git] whose
    [reset --hard HEAD] leaves no tracked file modified and whose
    [clean -fdx] leaves no file that is not tracked and touches no
    tracked file, a call that returns has left a working tree with
    neither. *)
Theorem reset_repo_two_steps (repo_path : string) (w : World os) :
  let reset := {| argv := ["git"; "reset"; "--hard"; "HEAD"];
                  cwd := Some repo_path; timeout := None |} in
  let clean := {| argv := ["git"; "clean"; "-fdx"];
                  cwd := Some repo_path; timeout := None |} in
  reset_repo os repo_path w
  = (let (w1, c1) := run os w reset in
     match raised_by reset c1 with
     | Some e => (w1, [(reset, c1)], Raise e)
     | None =>
         let (w2, c2) := run os w1 clean in
         (w2,
          [(reset, c1); (clean, c2)],
          match raised_by clean c2 with
          | Some e => Raise e
          | None => Return tt
          end)
     end)
  /\ (forall w' l,
        reset_repo os repo_path w = (w', l, Return tt) ->
        exists w1 out1 err1 out2 err2,
          run os w reset = (w1, Exited 0 out1 err1)
          /\ run os w1 clean = (w', Exited 0 out2 err2)
          /\ l = [(reset, Exited 0 out1 err1); (clean, Exited 0 out2 err2)])
  /\ (forall (modified untracked : Tree os -> bool) w' l,
        reset_discards os modified repo_path ->
        clean_deletes os modified untracked repo_path ->
        reset_repo os repo_path w = (w', l, Return tt) ->
        modified (worktree os w' repo_path) = false
        /\ untracked (worktree os w' repo_path) = false).
Proof.
  cbv zeta. fold (git_reset_hard repo_path) (git_clean repo_path).
  assert (Heq : reset_repo os repo_path w
    = (let (w1, c1) := run os w (git_reset_hard repo_path) in
       match raised_by (git_reset_hard repo_path) c1 with
       | Some e => (w1, [(git_reset_hard repo_path, c1)], Raise e)
       | None =>
           let (w2, c2) := run os w1 (git_clean repo_path) in
           (w2,
            [(git_reset_hard repo_path, c1); (git_clean repo_path, c2)],
            match raised_by (git_clean repo_path) c2 with
            | Some e => Raise e
            | None => Return tt
            end)
       end)).
  { unfold reset_repo, bind, subprocess_run, completed, ret, raised_by.
    destruct (run os w (git_reset_hard repo_path)) as [w1 c1].
    destruct c1 as [rc1 o1 e1| |]; simpl; try reflexivity.
    destruct (Z.eqb rc1 0); simpl; [|reflexivity].
    destruct (run os w1 (git_clean repo_path)) as [w2 c2].
    destruct c2 as [rc2 o2 e2| |]; simpl; try reflexivity.
    destruct (Z.eqb rc2 0); reflexivity. }
  assert (Hret : forall w' l,
            reset_repo os repo_path w = (w', l, Return tt) ->
            exists w1 out1 err1 out2 err2,
              run os w (git_reset_hard repo_path) = (w1, Exited 0 out1 err1)
              /\ run os w1 (git_clean repo_path) = (w', Exited 0 out2 err2)
              /\ l = [(git_reset_hard repo_path, Exited 0 out1 err1);
                      (git_clean repo_path, Exited 0 out2 err2)]).
  { intros w' l H. rewrite Heq in H. unfold raised_by in H.
    destruct (run os w (git_reset_hard repo_path)) as [w1 c1].
    destruct c1 as [rc1 o1 e1| |]; simpl in H; try discriminate.
    destruct (Z.eqb_spec rc1 0) as [->|]; simpl in H; [|discriminate].
    destruct (run os w1 (git_clean repo_path)) as [w2 c2] eqn:E2.
    destruct c2 as [rc2 o2 e2| |]; simpl in H; try discriminate.
    destruct (Z.eqb_spec rc2 0) as [->|]; simpl in H; [|discriminate].
    inversion H; subst. exists w1, o1, e1, o2, e2. auto. }
  split; [exact Heq|]. split; [exact Hret|].
  intros modified untracked w' l Hreset Hclean H.
  destruct (Hret _ _ H) as (w1 & o1 & e1 & o2 & e2 & E1 & E2 & _).
  pose proof (Hreset w w1 (git_reset_hard repo_path) o1 e1
                eq_refl eq_refl E1) as Hm.
  destruct (Hclean w1 w' (git_clean repo_path) o2 e2 eq_refl eq_refl E2)
    as [Hu Hkeep].
  split; [now rewrite Hkeep | exact Hu].
Qed.

End Properties.

End RepositoryManagerSpec.

(** * The functions in the small world *)

Module ScenarioSpec.
Import PyStr RepositoryManager GitAssumptions GitScenario RepositoryManagerSpec.
Import LogShape.
Local Open Scope string_scope.

(** No command of the scenario deletes a directory or touches the
    temporary files. *)
Lemma scenario_run_grows (w : world) (cmd : command) :
  files (fst (scenario_run w cmd)) = files w
  /\ exists extra, dirs (fst (scenario_run w cmd)) = (extra ++ dirs w)%list.
Proof.
  assert (Hclone : forall url dst,
             files (fst (clone w url dst)) = files w
             /\ exists extra,
                  dirs (fst (clone w url dst)) = (extra ++ dirs w)%list).
  { intros url dst. unfold clone. destruct (String.eqb url remote_url); simpl.
    - split; [reflexivity | now exists [dst]].
    - split; [reflexivity | now exists []]. }
  assert (Hsame : files w = files w
                  /\ exists extra, dirs w = (extra ++ dirs w)%list)
    by (split; [reflexivity | now exists []]).
  unfold scenario_run.
  repeat match goal with
         | |- context [match ?x with _ => _ end] =>
             lazymatch x with
             | clone _ _ _ => fail
             | _ => destruct x
             end
         end; simpl; auto.
Qed.

Lemma scenario_clone_creates : clone_creates_slot scenario.
Proof.
  intros w url dst w' out err H.
  assert (E : clone w url dst = (w', Exited 0 out err))
    by (destruct H as [H|H]; exact H).
  unfold clone in E. destruct (String.eqb url remote_url); [|discriminate].
  inversion E; subst. simpl. unfold scenario_exists; simpl.
  now rewrite String.eqb_refl.
Qed.

Lemma scenario_keeps_cwd : commands_keep_cwd scenario.
Proof.
  intros w cmd p _ Hex. simpl in *.
  destruct (scenario_run_grows w cmd) as [Hf [extra Hd]].
  unfold scenario_exists in *. rewrite Hf, Hd, existsb_app.
  apply orb_true_iff in Hex. destruct Hex as [Hex|Hex]; rewrite Hex.
  - now rewrite orb_true_r.
  - now rewrite orb_true_r.
Qed.

Lemma scenario_patch_file_outside (p : string) : patch_file_outside scenario p.
Proof.
  intros w suffix w1 f H. simpl in *.
  unfold scenario_tempfile in H. inversion H; subst; clear H.
  split; [reflexivity|]. split; [reflexivity|].
  intros w2 w3 Hr. unfold scenario_remove in Hr.
  destruct (lookup _ (files w2)); [|discriminate].
  now inversion Hr.
Qed.

Lemma scenario_check_is_dry_run (p : string) : check_is_dry_run scenario p.
Proof. intros w f. reflexivity. Qed.

Lemma scenario_apply_is_atomic (p : string) : apply_is_atomic scenario p.
Proof.
  intros w f w' rc out err H Hrc. simpl in *.
  unfold scenario_run in H. simpl in H.
  destruct (checked w f) as [rc0 o0 e0| |] eqn:Ec.
  - destruct rc0; try (inversion H; subst; reflexivity).
    destruct (lookup f (files w)); inversion H; subst;
      [contradiction | reflexivity].
  - inversion H.
  - inversion H.
Qed.

(** The [git] that stops half way keeps the two assumptions of C3 and
    not the third. *)
Lemma partial_patch_file_outside (p : string) :
  patch_file_outside GitFaults.partial_git p.
Proof.
  intros w suffix w1 f H. simpl in *.
  unfold scenario_tempfile in H. inversion H; subst; clear H.
  split; [reflexivity|]. split; [reflexivity|].
  intros w2 w3 Hr. unfold scenario_remove in Hr.
  destruct (lookup _ (files w2)); [|discriminate].
  now inversion Hr.
Qed.

Lemma partial_check_is_dry_run (p : string) :
  check_is_dry_run GitFaults.partial_git p.
Proof. intros w f. reflexivity. Qed.

Lemma dirty_reset_discards (p : string) :
  reset_discards GitFaults.dirty_tree GitFaults.has_modified p.
Proof.
  intros w w' cmd out err Ha _ Hr. simpl in Hr.
  unfold GitFaults.dirty_run in Hr. rewrite Ha in Hr. simpl in Hr.
  now inversion Hr.
Qed.

Lemma dirty_clean_deletes (p : string) :
  clean_deletes GitFaults.dirty_tree GitFaults.has_modified
    GitFaults.has_untracked p.
Proof.
  intros w w' cmd out err Ha _ Hr. simpl in Hr.
  unfold GitFaults.dirty_run in Hr. rewrite Ha in Hr. simpl in Hr.
  inversion Hr; subst. split; reflexivity.
Qed.

(** C8 in the scenario: the first call clones, the second one returns the
    slot at once. *)
Lemma get_repo_cache_idempotent_witness :
  clone_creates_slot scenario
  /\ commands_keep_cwd scenario
  /\ get_repo scenario "/cache" "octocat/Hello-World" remote_commit fresh
     = (cloned, clone_log, Return slot)
  /\ slot = repo_path "/cache" "octocat/Hello-World" remote_commit
  /\ get_repo scenario "/cache" "octocat/Hello-World" remote_commit cloned
     = (cloned, [], Return slot)
  /\ clones_done clone_log
     = (if path_exists scenario fresh slot then 0 else 1).
Proof.
  split; [exact scenario_clone_creates|].
  split; [exact scenario_keeps_cwd|].
  split; [vm_compute; reflexivity|].
  apply (@get_repo_cache_idempotent scenario "/cache" "octocat/Hello-World"
           remote_commit fresh cloned clone_log slot
           scenario_clone_creates scenario_keeps_cwd).
  vm_compute; reflexivity.
Defined.




(** C3 fails with the [git] that stops half way: the dry run passes,
    [git apply] writes one file and exits with 1, and [apply_patch]
    returns [success = false] over a working tree that is no longer the
    one of before the call. *)
Lemma apply_patch_failure_changes_tree :
  patch_file_outside GitFaults.partial_git slot
  /\ check_is_dry_run GitFaults.partial_git slot
  /\ apply_patch GitFaults.partial_git slot "diff --git a/f b/f" cloned
     = ({| dirs := dirs cloned; files := [];
           applied := ["the first file of diff --git a/f b/f"] |},
        [(git_apply_check "/tmp/tmp0.patch" slot, Exited 0 "" "");
         (git_apply "/tmp/tmp0.patch" slot,
          Exited 1 "" "error: unable to write file b/g")],
        Return {| success := false;
                  error := Some "error: unable to write file b/g" |})
  /\ worktree GitFaults.partial_git cloned slot = []
  /\ ~ failure_leaves_tree GitFaults.partial_git slot.
Proof.
  assert (E : apply_patch GitFaults.partial_git slot "diff --git a/f b/f"
                cloned
              = ({| dirs := dirs cloned; files := [];
                    applied := ["the first file of diff --git a/f b/f"] |},
                 [(git_apply_check "/tmp/tmp0.patch" slot, Exited 0 "" "");
                  (git_apply "/tmp/tmp0.patch" slot,
                   Exited 1 "" "error: unable to write file b/g")],
                 Return {| success := false;
                           error := Some "error: unable to write file b/g" |}))
    by (vm_compute; reflexivity).
  split; [exact (partial_patch_file_outside slot)|].
  split; [exact (partial_check_is_dry_run slot)|].
  split; [exact E|]. split; [reflexivity|].
  intros Hclaim. specialize (Hclaim _ _ _ _ _ E eq_refl).
  vm_compute in Hclaim. discriminate.
Qed.

(** C3, amended, with the same [git]: the tree after the call is the one
    [git apply] left. *)
Lemma apply_patch_failure_keeps_checked_tree_witness :
  let after := {| dirs := dirs cloned; files := [];
                  applied := ["the first file of diff --git a/f b/f"] |} in
  let log := [(git_apply_check "/tmp/tmp0.patch" slot, Exited 0 "" "");
              (git_apply "/tmp/tmp0.patch" slot,
               Exited 1 "" "error: unable to write file b/g")] in
  let result := {| success := false;
                   error := Some "error: unable to write file b/g" |} in
  ((exists f rc out err msg,
      rc <> 0%Z
      /\ log = [(git_apply_check f slot, Exited rc out err)]
      /\ text_of GitFaults.partial_git err = Some msg
      /\ error result = Some msg
      /\ worktree GitFaults.partial_git after slot
         = worktree GitFaults.partial_git cloned slot)
   \/ (exists f out0 err0 rc out raw msg w0 wm,
         rc <> 0%Z
         /\ log = [(git_apply_check f slot, Exited 0 out0 err0);
                   (git_apply f slot, Exited rc out raw)]
         /\ bytes_decode GitFaults.partial_git raw = Some msg
         /\ error result = Some msg
         /\ worktree GitFaults.partial_git w0 slot
            = worktree GitFaults.partial_git cloned slot
         /\ run GitFaults.partial_git w0 (git_apply f slot)
            = (wm, Exited rc out raw)
         /\ worktree GitFaults.partial_git after slot
            = worktree GitFaults.partial_git wm slot))
  /\ (apply_is_atomic GitFaults.partial_git slot ->
      worktree GitFaults.partial_git after slot
      = worktree GitFaults.partial_git cloned slot).
Proof.
  intros after log result.
  apply (@apply_patch_failure_keeps_checked_tree GitFaults.partial_git slot
           "diff --git a/f b/f" cloned after log result
           (partial_patch_file_outside slot)
           (partial_check_is_dry_run slot)).
  - vm_compute; reflexivity.
  - reflexivity.
Defined.

(** C9 in a working tree that a failed apply has left dirty. *)
Lemma reset_repo_two_steps_witness :
  reset_discards GitFaults.dirty_tree GitFaults.has_modified "/repo"
  /\ clean_deletes GitFaults.dirty_tree GitFaults.has_modified
       GitFaults.has_untracked "/repo"
  /\ GitFaults.has_modified GitFaults.after_failed_apply = true
  /\ GitFaults.has_untracked GitFaults.after_failed_apply = true
  /\ reset_repo GitFaults.dirty_tree "/repo" GitFaults.after_failed_apply
     = ({| GitFaults.modified_files := []; GitFaults.untracked_files := [] |},
        [(git_reset_hard "/repo", Exited 0 "HEAD is now at 7fd1a60" "");
         (git_clean "/repo", Exited 0 "" "")],
        Return tt)
  /\ GitFaults.has_modified
       {| GitFaults.modified_files := []; GitFaults.untracked_files := [] |}
     = false
  /\ GitFaults.has_untracked
       {| GitFaults.modified_files := []; GitFaults.untracked_files := [] |}
     = false.
Proof.
  split; [exact (@dirty_reset_discards "/repo")|].
  split; [exact (@dirty_clean_deletes "/repo")|].
  split; [reflexivity|]. split; [reflexivity|].
  assert (E : reset_repo GitFaults.dirty_tree "/repo"
                GitFaults.after_failed_apply
              = ({| GitFaults.modified_files := [];
                    GitFaults.untracked_files := [] |},
                 [(git_reset_hard "/repo",
                   Exited 0 "HEAD is now at 7fd1a60" "");
                  (git_clean "/repo", Exited 0 "" "")],
                 Return tt))
    by (vm_compute; reflexivity).
  split; [exact E|].
  destruct (@reset_repo_two_steps GitFaults.dirty_tree "/repo"
              GitFaults.after_failed_apply) as (_ & _ & H).
  exact (H GitFaults.has_modified GitFaults.has_untracked _ _
           (@dirty_reset_discards "/repo") (@dirty_clean_deletes "/repo") E).
Defined.

End ScenarioSpec.

(** * Properties of the error classifier *)

Module PatchErrorsSpec.
Import PyStr PatchValidator RepairValue PatchErrors.
Local Open Scope string_scope.

Lemma prefix_append (n m b : string) :
  String.prefix n m = true -> String.prefix n (m ++ b) = true.
Proof.
  revert m. induction n as [|a n IH]; intros m H.
  - destruct (m ++ b); reflexivity.
  - destruct m as [|c m]; [discriminate H|].
    simpl in *. destruct (ascii_dec a c); [now apply IH | discriminate].
Qed.

Lemma contains_append_r (n m b : string) :
  contains n m = true -> contains n (m ++ b) = true.
Proof.
  induction m as [|c m IH]; intros H.
  - cbn [contains] in H. rewrite orb_false_r in H.
    destruct n; [|discriminate H].
    destruct b; reflexivity.
  - cbn [contains] in H. apply orb_true_iff in H.
    change (String c m ++ b) with (String c (m ++ b)). cbn [contains].
    apply orb_true_iff. destruct H as [H|H].
    + left. exact (prefix_append _ (String c m) b H).
    + right. now apply IH.
Qed.

Lemma contains_append_l (n a m : string) :
  contains n m = true -> contains n (a ++ m) = true.
Proof.
  intros H. induction a as [|c a IH]; [exact H|].
  change (String c a ++ m) with (String c (a ++ m)). cbn [contains].
  rewrite IH. apply orb_true_r.
Qed.

Lemma lower_append (a b : string) : lower (a ++ b) = lower a ++ lower b.
Proof. induction a as [|c a IH]; simpl; [reflexivity | now rewrite IH]. Qed.

Lemma lower_char_idempotent (c : ascii) :
  lower_char (lower_char c) = lower_char c.
Proof. destruct c as [[] [] [] [] [] [] [] []]; reflexivity. Qed.

Lemma lower_idempotent (s : string) : lower (lower s) = lower s.
Proof.
  induction s as [|c s IH]; simpl; [reflexivity|].
  now rewrite lower_char_idempotent, IH.
Qed.

Lemma is_empty_lower (s : string) : is_empty (lower s) = is_empty s.
Proof. destruct s; reflexivity. Qed.

(** The label depends on the lowered message only. *)
Lemma classify_by_lower (m : string) :
  classify_patch_error m
  = if is_empty (lower m) then "success"
    else if contains "corrupt patch" (lower m) then "corrupt_patch"
    else if contains "does not apply" (lower m) || contains "hunk" (lower m)
         then "hunk_mismatch"
    else if contains "no such file" (lower m) then "file_not_found"
    else "other_error".
Proof. unfold classify_patch_error. now rewrite is_empty_lower. Qed.

Lemma classify_success_is_empty (m : string) :
  classify_patch_error m = "success" <-> m = "".
Proof.
  unfold classify_patch_error. destruct m as [|c m]; [split; reflexivity|].
  cbn [is_empty].
  destruct (contains "corrupt patch" (lower (String c m)));
    [split; discriminate|].
  destruct (contains "does not apply" (lower (String c m))
            || contains "hunk" (lower (String c m))); [split; discriminate|].
  destruct (contains "no such file" (lower (String c m))); split; discriminate.
Qed.

(** The label is one of five, and it is [success] for the empty message
    and for no other: a diagnostic that is not empty is never taken for a
    success. *)
Theorem classify_patch_error_labels (m : string) :
  In (classify_patch_error m)
     ["success"; "corrupt_patch"; "hunk_mismatch"; "file_not_found";
      "other_error"]
  /\ (classify_patch_error m = "success" <-> m = "").
Proof.
  unfold classify_patch_error. destruct m as [|c m].
  - split; [simpl; auto | split; reflexivity].
  - cbn [is_empty].
    destruct (contains "corrupt patch" (lower (String c m)));
      [split; [simpl; auto | split; discriminate]|].
    destruct (contains "does not apply" (lower (String c m))
              || contains "hunk" (lower (String c m)));
      [split; [simpl; auto | split; discriminate]|].
    destruct (contains "no such file" (lower (String c m)));
      split; try (simpl; tauto); split; discriminate.
Qed.

(** The classification ignores the case of the letters: two messages
    that are equal once lowered get the same label. *)
Theorem classify_patch_error_ignores_case (m1 m2 : string) :
  lower m1 = lower m2 ->
  classify_patch_error m1 = classify_patch_error m2.
Proof. intros H. rewrite !classify_by_lower. now rewrite H. Qed.

Lemma classify_patch_error_ignores_case_witness :
  lower "error: CORRUPT Patch at line 10" = lower "Error: corrupt patch at LINE 10"
  /\ classify_patch_error "error: CORRUPT Patch at line 10"
     = classify_patch_error "Error: corrupt patch at LINE 10".
Proof.
  split; [reflexivity|].
  apply (@classify_patch_error_ignores_case
           "error: CORRUPT Patch at line 10" "Error: corrupt patch at LINE 10").
  reflexivity.
Defined.

(** [corrupt patch] wins wherever it stands: a message classified as a
    corrupt patch stays one with any text before and after it, whatever
    that text mentions. *)
Theorem classify_corrupt_patch_in_context (before m after : string) :
  classify_patch_error m = "corrupt_patch" ->
  classify_patch_error (before ++ m ++ after) = "corrupt_patch".
Proof.
  intros H.
  assert (Hm : is_empty m = false
               /\ contains "corrupt patch" (lower m) = true).
  { unfold classify_patch_error in H. destruct (is_empty m); [discriminate|].
    split; [reflexivity|].
    destruct (contains "corrupt patch" (lower m)); [reflexivity|].
    destruct (contains "does not apply" (lower m) || contains "hunk" (lower m));
      [discriminate|].
    destruct (contains "no such file" (lower m)); discriminate. }
  destruct Hm as [Hne Hc].
  unfold classify_patch_error.
  assert (He : is_empty (before ++ m ++ after) = false).
  { destruct before; [|reflexivity]. destruct m; [discriminate | reflexivity]. }
  rewrite He, !lower_append.
  now rewrite contains_append_l by (now apply contains_append_r).
Qed.

Lemma classify_corrupt_patch_in_context_witness :
  classify_patch_error "corrupt patch at line 3" = "corrupt_patch"
  /\ classify_patch_error
       ("error: " ++ "corrupt patch at line 3" ++ "; hunk #1: No such file")
     = "corrupt_patch".
Proof.
  split; [reflexivity|].
  apply (@classify_corrupt_patch_in_context
           "error: " "corrupt patch at line 3" "; hunk #1: No such file").
  reflexivity.
Defined.

End PatchErrorsSpec.

(** * More on the repair *)

Module RepairSpec.
Import PyStr PatchValidator RepairValue DiffModel PatchValidatorSpec PatchErrorsSpec.
Local Open Scope string_scope.

(** ** Texts without hunks *)

Lemma repair_lines_without_hunks (lines : list string) :
  Forall (fun l => startswith l "@@" = false) lines ->
  repaired_lines lines = lines.
Proof.
  induction 1 as [|l ls Hl _ IH]; [reflexivity|].
  now rewrite repair_lines_cons, Hl, IH.
Qed.

Lemma prefix_atat (s : string) :
  String.prefix "@@" s
  = match s with
    | String a (String b _) => Ascii.eqb a "@" && Ascii.eqb b "@"
    | _ => false
    end.
Proof.
  destruct s as [|a [|b r]]; try reflexivity; cbn [String.prefix].
  - destruct (ascii_dec "@" a); reflexivity.
  - destruct (ascii_dec "@" a) as [<-|Ha].
    + destruct (ascii_dec "@" b) as [<-|Hb].
      * destruct r; reflexivity.
      * destruct (Ascii.eqb_spec b "@"); [congruence | reflexivity].
    + destruct (Ascii.eqb_spec a "@"); [congruence | reflexivity].
Qed.

Lemma contains_atat_cons (c : ascii) (s : string) :
  contains "@@" (String c s)
  = (Ascii.eqb c "@" && match s with
                        | String b _ => Ascii.eqb b "@"
                        | EmptyString => false
                        end) || contains "@@" s.
Proof.
  cbn [contains]. rewrite prefix_atat.
  destruct s; [now rewrite andb_false_r | reflexivity].
Qed.

(** Replacing the CRLF pairs brings no two [@] together. *)
Lemma replace_crlf_no_new_hunk_marker (n : nat) :
  forall d, String.length d <= n ->
  contains "@@" d = false -> contains "@@" (replace_crlf d) = false.
Proof.
  induction n as [|n IH]; intros d Hlen H.
  - destruct d; [reflexivity | simpl in Hlen; lia].
  - destruct d as [|c [|d' rest]]; try reflexivity.
    + exact H.
    + simpl in Hlen. rewrite contains_atat_cons in H.
      apply orb_false_iff in H. destruct H as [Hhead Hrest].
      rewrite replace_crlf_cons.
      destruct (Ascii.eqb c CR && Ascii.eqb d' LF) eqn:Epair.
      * rewrite contains_atat_cons. simpl andb.
        rewrite contains_atat_cons in Hrest.
        apply orb_false_iff in Hrest. destruct Hrest as [_ Hrest'].
        apply IH; [lia | assumption].
      * rewrite contains_atat_cons.
        rewrite (IH (String d' rest)) by (simpl; lia || assumption).
        rewrite orb_false_r.
        destruct (Ascii.eqb c "@") eqn:Ec; [|reflexivity].
        cbn [andb] in Hhead |- *.
        destruct rest as [|e r]; [exact Hhead|].
        rewrite replace_crlf_cons.
        destruct (Ascii.eqb d' CR && Ascii.eqb e LF); [reflexivity|].
        exact Hhead.
Qed.

Lemma contains_atat_append_nl (p : string) :
  contains "@@" p = false -> contains "@@" (p ++ nl) = false.
Proof.
  induction p as [|c p IH]; intros H; [reflexivity|].
  change (String c p ++ nl) with (String c (p ++ nl)).
  rewrite contains_atat_cons in *.
  apply orb_false_iff in H. destruct H as [Hh Hr].
  rewrite IH by assumption. rewrite orb_false_r.
  destruct p as [|e r]; [now rewrite andb_false_r | exact Hh].
Qed.

Lemma contains_join_lines (needle l : string) (ls : list string) :
  In l ls -> contains needle l = true ->
  contains needle (join_lines ls) = true.
Proof.
  intros Hin Hc. induction ls as [|x ls IH]; [contradiction|].
  destruct ls as [|y ls].
  - destruct Hin as [->|[]]. exact Hc.
  - rewrite join_lines_cons by discriminate.
    destruct Hin as [->|Hin].
    + now apply contains_append_r.
    + apply contains_append_l, contains_append_l. now apply IH.
Qed.

Lemma startswith_contains (l p : string) :
  startswith l p = true -> contains p l = true.
Proof.
  unfold startswith. intros H. destruct l; cbn [contains]; now rewrite H.
Qed.

(** The repaired text of a text without [@@] is the text with its CRLF
    pairs replaced and a final line feed. *)
Lemma repaired_patch_without_hunks (d : string) :
  has_hunks (validate_patch d) = false ->
  repaired_patch d = ensure_newline (replace_crlf d).
Proof.
  intros H. change (contains "@@" d = false) in H.
  assert (Hn : contains "@@" (ensure_newline (replace_crlf d)) = false).
  { pose proof (@replace_crlf_no_new_hunk_marker (String.length d) d
                  (le_n _) H) as Hr.
    unfold ensure_newline. destruct (endswith (replace_crlf d) nl);
      [exact Hr | now apply contains_atat_append_nl]. }
  unfold repaired_patch.
  rewrite repair_lines_without_hunks; [apply join_lines_split_lines|].
  apply Forall_forall. intros l Hl.
  destruct (startswith l "@@") eqn:E; [|reflexivity].
  apply startswith_contains in E.
  pose proof (contains_join_lines _ _ _ Hl E) as Hc.
  rewrite join_lines_split_lines in Hc. congruence.
Qed.


(** ** One hunk *)

(** [_repair_hunk] on a hunk whose header matches: the rebuilt header
    matches the pattern again, with the start numbers and the text after
    the closing [@@] of the header it replaces, and it declares the counts
    of the body the hunk came with; the body is emitted in order, without
    its single-space lines. *)
Lemma repaired_hunk_keeps_starts_and_context (header : string)
    (body : list string) (m : hunk_groups) :
  hunk_header_match header = Some m ->
  exists h m',
    repaired_hunk (header :: body)
    = h :: filter (fun line => negb (String.eqb line " ")) body
    /\ hunk_header_match h = Some m'
    /\ digits_value (group1 m') = digits_value (group1 m)
    /\ digits_value (group3 m') = digits_value (group3 m)
    /\ group5 m' = group5 m
    /\ declared_counts h = Some (old_lines body, new_lines body).
Proof.
  intros Hm. unfold repaired_hunk. rewrite Hm, count_lines_spec.
  eexists. eexists. split; [reflexivity|].
  split; [apply hunk_header_match_format|].
  cbn [group1 group3 group5]. rewrite !int_of_digits_str_of_int.
  repeat split.
  - exact (hunk_groups_lf_free _ Hm).
  - apply declared_counts_format.
Qed.


(** ** The first line *)

Lemma prefix_split (p s : string) :
  String.prefix p s = true -> exists r, s = p ++ r.
Proof.
  revert s. induction p as [|a p IH]; intros s H; [now exists s|].
  destruct s as [|b s]; [discriminate H|].
  simpl in H. destruct (ascii_dec a b) as [->|]; [|discriminate].
  destruct (IH _ H) as [r ->]. now exists r.
Qed.

Lemma prefix_refl_append (p r : string) : String.prefix p (p ++ r) = true.
Proof.
  induction p as [|a p IH]; simpl; [destruct r; reflexivity|].
  destruct (ascii_dec a a); [exact IH | contradiction].
Qed.

(** The replacement leaves a beginning without CR as it is. *)
Lemma replace_crlf_plain_prefix (p r : string) :
  contains cr p = false -> replace_crlf (p ++ r) = p ++ replace_crlf r.
Proof.
  induction p as [|c p IH]; intros H; [reflexivity|].
  cbn [contains] in H. apply orb_false_iff in H. destruct H as [Hp Hc].
  assert (Hcr : Ascii.eqb c CR = false).
  { destruct (Ascii.eqb_spec c CR) as [->|]; [|reflexivity].
    unfold cr in Hp. cbn [String.prefix] in Hp.
    destruct (ascii_dec CR CR); [destruct p; discriminate Hp | contradiction]. }
  change (String c p ++ r) with (String c (p ++ r)).
  destruct (p ++ r) as [|e t] eqn:E.
  - destruct p; [|discriminate E]. simpl in E. subst r. reflexivity.
  - rewrite replace_crlf_cons, Hcr. cbn [andb]. now rewrite IH by assumption.
Qed.

Lemma split_lines_first (t : string) :
  exists ls, split_lines t = until_lf t :: ls.
Proof.
  induction t as [|c t [ls IH]]; [now exists []|].
  simpl. destruct (Ascii.eqb c LF); [eauto|].
  rewrite IH. eauto.
Qed.

Lemma until_lf_append (s t : string) :
  lf_free s -> until_lf (s ++ t) = s ++ until_lf t.
Proof.
  induction s as [|c s IH]; intros H; [reflexivity|].
  destruct (lf_free_cons H) as [Hc Hs]. simpl. now rewrite Hc, IH.
Qed.

(** A text that begins with [diff --git] still does after the repair: the
    header [validate_patch] asks for is never lost. *)
Lemma repaired_patch_keeps_diff_header (d : string) :
  has_diff_header (validate_patch d) = true ->
  has_diff_header (validate_patch (repaired_patch d)) = true.
Proof.
  intros H. change (startswith d "diff --git" = true) in H.
  change (startswith (repaired_patch d) "diff --git" = true).
  destruct (prefix_split _ _ H) as [r ->].
  unfold repaired_patch.
  rewrite replace_crlf_plain_prefix by reflexivity.
  assert (He : exists y, ensure_newline ("diff --git" ++ replace_crlf r)
                         = "diff --git" ++ y).
  { unfold ensure_newline. destruct (endswith _ nl); [eauto|].
    exists (replace_crlf r ++ nl). now rewrite append_assoc. }
  destruct He as [y ->].
  destruct (split_lines_first ("diff --git" ++ y)) as [ls ->].
  rewrite until_lf_append by reflexivity.
  rewrite repair_lines_cons.
  change (startswith ("diff --git" ++ until_lf y) "@@") with false.
  cbv iota. unfold startswith.
  destruct (repaired_lines ls) as [|x xs].
  - cbn [join_lines]. apply prefix_refl_append.
  - rewrite join_lines_cons by discriminate.
    rewrite append_assoc. apply prefix_refl_append.
Qed.


(** ** Texts the repair leaves consistent *)

Lemma clean_patch_lines :
  normalised_lines two_hunk_crlf_patch
  = ["diff --git a/f b/f"; "--- a/f"; "+++ b/f";
     "@@ -1,5 +1,5 @@"; " a"; "-b"; "+c"; "@@ -9 +9 @@ tail"; "+d"; ""].
Proof. vm_compute. reflexivity. Qed.

(** ** The functions of [PatchValidator] and the values they return *)

Lemma repair_hunk_value (header : string) (body : list string) :
  repair_hunk (header :: body)
  = if header_within_limit header
    then Ok (repaired_hunk (header :: body)) else ValueError.
Proof.
  unfold repair_hunk, repaired_hunk, header_within_limit, int_of_digits.
  destruct (hunk_header_match header) as [m|]; [|reflexivity].
  destruct (String.length (group1 m) <=? int_max_str_digits)%nat;
    [|reflexivity].
  destruct (String.length (group3 m) <=? int_max_str_digits)%nat;
    [|reflexivity].
  cbn [andb]. destruct (count_lines body). reflexivity.
Qed.

(** The loop body of [repair_patch], as one equation. *)
Lemma repair_lines_step (line : string) (rest : list string) :
  repair_lines (line :: rest) =
  if startswith line "@@" then
    match hunk_header_match line with
    | None => extend [line] (repair_lines rest)
    | Some _ =>
        match repair_hunk (line :: hunk_body rest) with
        | ValueError => ValueError
        | Ok hunk => extend hunk (repair_lines (after_hunk rest))
        end
    end
  else extend [line] (repair_lines rest).
Proof.
  simp repair_lines.
  destruct (startswith line "@@"); [|now simp repair_lines].
  simp repair_lines.
  destruct (hunk_header_match line); [|now simp repair_lines].
  simp repair_lines.
  destruct (repair_hunk (line :: hunk_body rest)); now simp repair_lines.
Qed.

Lemma in_hunk_within_limit (l : string) :
  in_hunk l = true -> header_within_limit l = true.
Proof.
  intros H. unfold header_within_limit.
  now rewrite (@in_hunk_no_header l H).
Qed.

Lemma within_limit_after_hunk (rest : list string) :
  within_limit (after_hunk rest) = within_limit rest.
Proof.
  induction rest as [|l ls IH]; [reflexivity|].
  cbn [after_hunk]. destruct (in_hunk l) eqn:E; [|reflexivity].
  rewrite IH. unfold within_limit. cbn [forallb].
  now rewrite (@in_hunk_within_limit l E).
Qed.

(** The loop raises exactly when one of its lines is a header with a
    start number too long for [int()], and returns the repaired lines
    otherwise. *)
Lemma repair_lines_value (n : nat) :
  forall lines, List.length lines <= n ->
  repair_lines lines
  = if within_limit lines then Ok (repaired_lines lines) else ValueError.
Proof.
  induction n as [|n IH]; intros lines Hlen.
  - destruct lines; [now simp repair_lines repaired_lines|].
    simpl in Hlen; lia.
  - destruct lines as [|line rest]; [now simp repair_lines repaired_lines|].
    cbn [List.length] in Hlen.
    rewrite repair_lines_step, repair_lines_cons.
    unfold within_limit. cbn [forallb]. fold (within_limit rest).
    assert (Hcopy : hunk_header_match line = None ->
              extend [line] (repair_lines rest)
              = if header_within_limit line && within_limit rest
                then Ok (line :: repaired_lines rest) else ValueError).
    { intros Hno. rewrite (IH rest) by lia.
      unfold header_within_limit. rewrite Hno. cbn [andb].
      destruct (within_limit rest); reflexivity. }
    destruct (startswith line "@@") eqn:Es.
    + destruct (hunk_header_match line) as [m|] eqn:Hm;
        [|now apply Hcopy].
      rewrite repair_hunk_value.
      destruct (header_within_limit line); [|reflexivity].
      cbn [andb].
      rewrite (IH (after_hunk rest))
        by (pose proof (after_hunk_length rest); lia).
      rewrite within_limit_after_hunk.
      destruct (within_limit rest); reflexivity.
    + apply Hcopy.
      destruct (hunk_header_match line) as [m|] eqn:Hm; [|reflexivity].
      rewrite (@hunk_header_match_startswith line m Hm) in Es.
      discriminate.
Qed.

Lemma repair_patch_value (d : string) :
  repair_patch d
  = if within_limit (normalised_lines d)
    then Ok (repaired_patch d) else ValueError.
Proof.
  unfold repair_patch, repaired_patch. cbv zeta.
  fold (normalised_lines d).
  rewrite (@repair_lines_value (List.length (normalised_lines d)) _ (le_n _)).
  destruct (within_limit (normalised_lines d)); reflexivity.
Qed.

(** *** Texts without hunks *)

Lemma lines_without_hunks (d : string) :
  contains "@@" d = false ->
  Forall (fun l => startswith l "@@" = false) (normalised_lines d).
Proof.
  intros H.
  assert (Hn : contains "@@" (ensure_newline (replace_crlf d)) = false).
  { pose proof (@replace_crlf_no_new_hunk_marker (String.length d) d
                  (le_n _) H) as Hr.
    unfold ensure_newline. destruct (endswith (replace_crlf d) nl);
      [exact Hr | now apply contains_atat_append_nl]. }
  apply Forall_forall. intros l Hl. unfold normalised_lines in Hl.
  destruct (startswith l "@@") eqn:E; [|reflexivity].
  apply startswith_contains in E.
  pose proof (contains_join_lines _ _ _ Hl E) as Hc.
  rewrite join_lines_split_lines in Hc. congruence.
Qed.

Lemma within_limit_without_hunks (lines : list string) :
  Forall (fun l => startswith l "@@" = false) lines ->
  within_limit lines = true.
Proof.
  induction 1 as [|l ls Hl _ IH]; [reflexivity|].
  unfold within_limit. cbn [forallb]. fold (within_limit ls). rewrite IH.
  unfold header_within_limit.
  destruct (hunk_header_match l) as [m|] eqn:Hm; [|reflexivity].
  rewrite (@hunk_header_match_startswith l m Hm) in Hl. discriminate.
Qed.

(** *** The digits of a rebuilt header *)

Lemma string_of_uint_length (d : Decimal.uint) :
  String.length (NilEmpty.string_of_uint d) = Decimal.nb_digits d.
Proof. induction d; simpl; congruence. Qed.

(** Printing the number a string of digits denotes never gives more
    digits than the string has. *)
Lemma str_of_int_digits_value_length (g : string) :
  g <> "" -> String.length (str_of_int (digits_value g)) <= String.length g.
Proof.
  intros Hg. unfold str_of_int, digits_value.
  destruct (NilEmpty.uint_of_string g) as [d|] eqn:E.
  - rewrite DecimalN.Unsigned.to_of, string_of_uint_length.
    apply NilEmpty.sus in E. subst g. rewrite string_of_uint_length.
    apply DecimalFacts.nb_digits_unorm. intros ->. now apply Hg.
  - destruct g; [congruence | simpl; lia].
Qed.

Lemma hunk_groups_nonempty (line : string) (m : hunk_groups) :
  hunk_header_match line = Some m -> group1 m <> "" /\ group3 m <> "".
Proof.
  unfold hunk_header_match. intros H.
  repeat match type of H with
         | context [match ?x with _ => _ end] =>
             destruct x eqn:?; try discriminate
         end.
  inversion H; subst. cbn [group1 group3].
  split; intros E; subst; discriminate.
Qed.

Lemma repaired_hunk_within_limit (header : string) (body : list string) :
  header_within_limit header = true ->
  Forall (fun l => in_hunk l = true) body ->
  within_limit (repaired_hunk (header :: body)) = true.
Proof.
  intros Hh Hb.
  assert (Hbody : forall keep, within_limit (filter keep body) = true).
  { intros keep. apply forallb_forall. intros x Hx.
    apply filter_In in Hx. destruct Hx as [Hx _].
    rewrite Forall_forall in Hb. now apply in_hunk_within_limit, Hb. }
  unfold repaired_hunk.
  destruct (hunk_header_match header) as [m|] eqn:Hm.
  - destruct (count_lines body) as [oc nc].
    unfold within_limit. cbn [forallb]. fold (within_limit (clean_body body)).
    unfold clean_body. rewrite Hbody, andb_true_r.
    unfold header_within_limit in *. rewrite Hm in Hh.
    rewrite hunk_header_match_format. cbn [group1 group3].
    apply andb_true_iff in Hh. destruct Hh as [H1 H3].
    apply Nat.leb_le in H1, H3.
    destruct (@hunk_groups_nonempty header m Hm) as [N1 N3].
    pose proof (str_of_int_digits_value_length N1).
    pose proof (str_of_int_digits_value_length N3).
    apply andb_true_iff. split; apply Nat.leb_le; lia.
  - unfold within_limit. cbn [forallb]. rewrite Hh. cbn [andb].
    specialize (Hbody (fun _ => true)).
    replace (filter (fun _ : string => true) body) with body in Hbody;
      [exact Hbody|].
    clear. induction body as [|x xs IH]; [reflexivity|].
    cbn [filter]. now rewrite <- IH.
Qed.

(** A repair brings no start number over the limit. *)
Lemma repaired_lines_within_limit (n : nat) :
  forall lines, List.length lines <= n ->
  within_limit lines = true -> within_limit (repaired_lines lines) = true.
Proof.
  induction n as [|n IH]; intros lines Hlen H.
  - destruct lines; [now simp repaired_lines|]. simpl in Hlen; lia.
  - destruct lines as [|line rest]; [now simp repaired_lines|].
    cbn [List.length] in Hlen.
    unfold within_limit in H. cbn [forallb] in H.
    fold (within_limit rest) in H.
    apply andb_true_iff in H. destruct H as [Hline Hrest].
    rewrite repair_lines_cons.
    assert (Hcopy : within_limit (line :: repaired_lines rest) = true).
    { unfold within_limit. cbn [forallb]. rewrite Hline. cbn [andb].
      apply IH; [lia | exact Hrest]. }
    destruct (startswith line "@@"); [|exact Hcopy].
    destruct (hunk_header_match line) as [m|]; [|exact Hcopy].
    unfold within_limit. rewrite forallb_app.
    fold (within_limit (repaired_hunk (line :: hunk_body rest))).
    fold (within_limit (repaired_lines (after_hunk rest))).
    rewrite repaired_hunk_within_limit
      by (assumption || apply hunk_body_in_hunk).
    cbn [andb]. apply IH.
    + pose proof (after_hunk_length rest). lia.
    + now rewrite within_limit_after_hunk.
Qed.

(** The lines a second repair works on are the lines the first one
    built. *)
Lemma normalised_lines_repaired (d : string) :
  contains crlf (repaired_patch d) = false ->
  normalised_lines (repaired_patch d) = repaired_lines (normalised_lines d).
Proof.
  intros Hcr. unfold normalised_lines at 1.
  rewrite (replace_crlf_id _ Hcr). unfold ensure_newline.
  destruct (repair_patch_shape d) as [r Hr].
  assert (He : endswith (repaired_patch d) nl = true)
    by (rewrite Hr; apply endswith_append_nl).
  rewrite He. unfold repaired_patch. fold (normalised_lines d).
  rewrite split_lines_join_lines.
  - reflexivity.
  - unfold normalised_lines.
    destruct (ensure_newline_ends (replace_crlf d)) as [s ->].
    rewrite split_lines_append_nl.
    destruct (@repair_lines_snoc_empty (List.length (split_lines s))
                (split_lines s) (le_n _)) as (out & -> & _).
    destruct out; discriminate.
  - apply repair_lines_lf_free, split_lines_lf_free.
Qed.

(** *** The line feeds at the end *)

Lemma append_empty_r (s : string) : s ++ "" = s.
Proof. induction s as [|c s IH]; simpl; [reflexivity | now rewrite IH]. Qed.

Lemma split_lines_lfs (s : string) (k : nat) :
  split_lines (s ++ lfs k) = (split_lines s ++ repeat "" k)%list.
Proof.
  induction k as [|k IH].
  - cbn [lfs repeat]. now rewrite append_empty_r, app_nil_r.
  - cbn [lfs]. rewrite <- append_assoc, split_lines_append_nl, IH.
    rewrite <- app_assoc. f_equal. symmetry. apply repeat_cons.
Qed.

Lemma count_lines_snoc_empty (body : list string) :
  count_lines (body ++ [""]) = count_lines body.
Proof.
  unfold count_lines. rewrite fold_left_app. cbn [fold_left].
  destruct (fold_left count_line body (0%N, 0%N)). reflexivity.
Qed.

Lemma repaired_hunk_snoc_empty (header : string) (body : list string) :
  repaired_hunk (header :: body ++ [""])
  = (repaired_hunk (header :: body) ++ [""])%list.
Proof.
  unfold repaired_hunk.
  destruct (hunk_header_match header) as [m|]; [|reflexivity].
  rewrite count_lines_snoc_empty, clean_body_snoc_empty.
  destruct (count_lines body). reflexivity.
Qed.

(** The loop keeps a final empty line where it is. *)
Lemma repaired_lines_snoc_empty (n : nat) :
  forall ls, List.length ls <= n ->
  repaired_lines (ls ++ [""]) = (repaired_lines ls ++ [""])%list.
Proof.
  induction n as [|n IH]; intros ls Hlen.
  - destruct ls; [|simpl in Hlen; lia].
    cbn [app]. rewrite repair_lines_cons. now simp repaired_lines.
  - destruct ls as [|line rest].
    + cbn [app]. rewrite repair_lines_cons. now simp repaired_lines.
    + cbn [List.length] in Hlen.
      change ((line :: rest) ++ [""])%list with (line :: (rest ++ [""]))%list.
      rewrite !repair_lines_cons.
      assert (Hcopy : line :: repaired_lines (rest ++ [""])
                      = ((line :: repaired_lines rest) ++ [""])%list)
        by (rewrite IH by lia; reflexivity).
      destruct (startswith line "@@"); [|exact Hcopy].
      destruct (hunk_header_match line) as [m|]; [|exact Hcopy].
      destruct (hunk_body_snoc_empty rest) as [(H1 & H2 & H3)|(H1 & H2 & H3)].
      * rewrite H1, H2, H3, repaired_hunk_snoc_empty.
        simp repaired_lines. now rewrite !app_nil_r.
      * rewrite H1, H3, IH
          by (pose proof (after_hunk_length rest); lia).
        now rewrite app_assoc.
Qed.

Lemma repaired_lines_snoc_repeat (ls : list string) (k : nat) :
  repaired_lines (ls ++ repeat "" k)
  = (repaired_lines ls ++ repeat "" k)%list.
Proof.
  induction k as [|k IH].
  - cbn [repeat]. now rewrite !app_nil_r.
  - cbn [repeat]. rewrite repeat_cons, !app_assoc.
    rewrite (@repaired_lines_snoc_empty (List.length (ls ++ repeat "" k)) _
               (le_n _)).
    now rewrite IH.
Qed.

Lemma join_lines_snoc_repeat (ls : list string) (k : nat) :
  ls <> [] -> join_lines (ls ++ repeat "" k) = join_lines ls ++ lfs k.
Proof.
  intros Hne. induction k as [|k IH].
  - cbn [repeat lfs]. now rewrite app_nil_r, append_empty_r.
  - cbn [repeat lfs]. rewrite repeat_cons, app_assoc.
    rewrite join_lines_snoc_empty, IH.
    + now rewrite append_assoc.
    + destruct ls; [contradiction | discriminate].
Qed.

Lemma repaired_lines_nonempty (ls : list string) :
  ls <> [] -> repaired_lines ls <> [].
Proof.
  destruct ls as [|line rest]; [contradiction | intros _].
  rewrite repair_lines_cons.
  destruct (startswith line "@@"); [|discriminate].
  destruct (hunk_header_match line); [|discriminate].
  intros E. apply app_eq_nil in E. destruct E as [E _].
  exact (repair_hunk_nonempty _ _ E).
Qed.

(** The line feeds that end the normalised text end the repaired text. *)
Lemma repaired_patch_keeps_trailing_lfs (d s : string) (k : nat) :
  replace_crlf d = s ++ lfs k -> exists s', repaired_patch d = s' ++ lfs k.
Proof.
  intros E. destruct k as [|k].
  - exists (repaired_patch d). cbn [lfs]. now rewrite append_empty_r.
  - unfold repaired_patch. rewrite E. unfold ensure_newline.
    assert (He : endswith (s ++ lfs (S k)) nl = true)
      by (cbn [lfs]; rewrite <- append_assoc; apply endswith_append_nl).
    rewrite He, split_lines_lfs, repaired_lines_snoc_repeat.
    rewrite join_lines_snoc_repeat
      by apply repaired_lines_nonempty, split_lines_nonempty.
    eauto.
Qed.

(** ** What [repair_patch] guarantees, and when it returns *)

(** C5, amended.  [repair_patch] returns on every ASCII text none of
    whose hunk headers has a start number of more than 4300 digits, and
    raises [ValueError] on the others.  Every text it returns ends with a
    line feed, and with at least as many line feeds as the input has at
    its end once its CRLF pairs are replaced: a line feed is appended
    when there is none, and none is ever removed. *)
Theorem repair_patch_ends_with_lf (d : string) :
  (is_ascii d = true ->
   (within_limit (normalised_lines d) = true ->
    exists out, repair_patch d = Ok out)
   /\ (within_limit (normalised_lines d) = false ->
       repair_patch d = ValueError))
  /\ forall out, repair_patch d = Ok out ->
       endswith out nl = true
       /\ forall s k, replace_crlf d = s ++ lfs k ->
                      exists s', out = s' ++ lfs k.
Proof.
  rewrite repair_patch_value. split.
  - intros _. split; intros ->; eauto.
  - intros out H.
    destruct (within_limit (normalised_lines d)); [|discriminate].
    inversion H; subst out. split.
    + apply repaired_patch_ends_with_lf.
    + intros s k. apply repaired_patch_keeps_trailing_lfs.
Qed.

Lemma repair_patch_ends_with_lf_witness :
  is_ascii ("a" ++ crlf ++ crlf) = true
  /\ repair_patch ("a" ++ crlf ++ crlf) = Ok ("a" ++ lfs 2)
  /\ endswith ("a" ++ lfs 2) nl = true
  /\ exists s', "a" ++ lfs 2 = s' ++ lfs 2.
Proof.
  assert (E : repair_patch ("a" ++ crlf ++ crlf) = Ok ("a" ++ lfs 2))
    by (vm_compute; reflexivity).
  split; [reflexivity|]. split; [exact E|].
  destruct (@repair_patch_ends_with_lf ("a" ++ crlf ++ crlf)) as [_ H].
  destruct (H _ E) as [H1 H2]. split; [exact H1|].
  apply (H2 "a" 2). reflexivity.
Defined.

(** [repair_patch] has no guard on the numbers of a header: on an ASCII
    text it raises [ValueError] exactly when a line that matches the
    header pattern has a start number of more than 4300 digits. *)
Theorem repair_patch_raises_on_long_numbers (d : string) :
  is_ascii d = true ->
  (repair_patch d = ValueError
   <-> within_limit (normalised_lines d) = false).
Proof.
  intros _. rewrite repair_patch_value.
  destruct (within_limit (normalised_lines d)); split;
    intros H; (discriminate H || reflexivity).
Qed.

Lemma repair_patch_raises_on_long_numbers_witness :
  is_ascii long_header_patch = true
  /\ validate_patch long_header_patch
     = {| valid := true; issues := []; has_diff_header := true;
          has_hunks := true |}
  /\ repair_patch long_header_patch = ValueError
  /\ (repair_patch long_header_patch = ValueError
      <-> within_limit (normalised_lines long_header_patch) = false).
Proof.
  split; [vm_compute; reflexivity|].
  split; [vm_compute; reflexivity|].
  split; [vm_compute; reflexivity|].
  apply (@repair_patch_raises_on_long_numbers long_header_patch).
  vm_compute; reflexivity.
Defined.

(** A text without [@@] is repaired by the normalisation alone: when
    [validate_patch] finds no hunk, [repair_patch] returns the text with
    its CRLF pairs replaced and a final line feed, and changes nothing
    else. *)
Theorem repair_patch_without_hunks (d : string) :
  has_hunks (validate_patch d) = false ->
  repair_patch d = Ok (ensure_newline (replace_crlf d)).
Proof.
  intros H. rewrite repair_patch_value.
  rewrite (within_limit_without_hunks (@lines_without_hunks d H)).
  now rewrite (@repaired_patch_without_hunks d H).
Qed.

Lemma repair_patch_without_hunks_witness :
  has_hunks (validate_patch ("--- a/f" ++ crlf ++ "+++ b/f")) = false
  /\ repair_patch ("--- a/f" ++ crlf ++ "+++ b/f")
     = Ok (ensure_newline (replace_crlf ("--- a/f" ++ crlf ++ "+++ b/f"))).
Proof.
  split; [reflexivity|].
  apply (@repair_patch_without_hunks ("--- a/f" ++ crlf ++ "+++ b/f")).
  reflexivity.
Defined.

(** [_repair_hunk] on a hunk whose header matches the pattern with ASCII
    digits and start numbers of at most 4300 digits: it returns, the
    rebuilt header matches the pattern again, with the start numbers and
    the text after the closing [@@] of the header it replaces, and it
    declares the counts of the body the hunk came with; the body is
    emitted in order, without its single-space lines. *)
Theorem repair_hunk_keeps_starts_and_context (header : string)
    (body : list string) (m : hunk_groups) :
  hunk_header_match header = Some m ->
  header_within_limit header = true ->
  exists h m',
    repair_hunk (header :: body)
    = Ok (h :: filter (fun line => negb (String.eqb line " ")) body)
    /\ hunk_header_match h = Some m'
    /\ digits_value (group1 m') = digits_value (group1 m)
    /\ digits_value (group3 m') = digits_value (group3 m)
    /\ group5 m' = group5 m
    /\ declared_counts h = Some (old_lines body, new_lines body).
Proof.
  intros Hm Hlim. rewrite repair_hunk_value, Hlim.
  destruct (@repaired_hunk_keeps_starts_and_context header body m Hm)
    as (h & m' & E & H).
  exists h, m'. rewrite E. split; [reflexivity | exact H].
Qed.

Lemma repair_hunk_keeps_starts_and_context_witness :
  hunk_header_match "@@ -007,9 +12 @@ def f():"
  = Some {| group1 := "007"; group2 := "9"; group3 := "12"; group4 := "";
            group5 := " def f():" |}
  /\ exists h m',
       repair_hunk ["@@ -007,9 +12 @@ def f():"; " a"; " "; "+b"]
       = Ok (h :: filter (fun line => negb (String.eqb line " "))
                    [" a"; " "; "+b"])
       /\ hunk_header_match h = Some m'
       /\ digits_value (group1 m') = digits_value "007"
       /\ digits_value (group3 m') = digits_value "12"
       /\ group5 m' = " def f():"
       /\ declared_counts h
          = Some (old_lines [" a"; " "; "+b"], new_lines [" a"; " "; "+b"]).
Proof.
  split; [reflexivity|].
  exact (@repair_hunk_keeps_starts_and_context
           "@@ -007,9 +12 @@ def f():" [" a"; " "; "+b"] _ eq_refl eq_refl).
Defined.

(** An ASCII text that begins with [diff --git] and on which the repair
    returns still begins with it after the repair: the header
    [validate_patch] asks for is never lost. *)
Theorem repair_patch_keeps_diff_header (d : string) :
  is_ascii d = true ->
  within_limit (normalised_lines d) = true ->
  has_diff_header (validate_patch d) = true ->
  exists out,
    repair_patch d = Ok out
    /\ has_diff_header (validate_patch out) = true.
Proof.
  intros _ Hlim H. exists (repaired_patch d). split.
  - now rewrite repair_patch_value, Hlim.
  - now apply repaired_patch_keeps_diff_header.
Qed.

Lemma repair_patch_keeps_diff_header_witness :
  has_diff_header (validate_patch blank_context_patch) = true
  /\ exists out,
       repair_patch blank_context_patch = Ok out
       /\ has_diff_header (validate_patch out) = true.
Proof.
  split; [reflexivity|].
  apply (@repair_patch_keeps_diff_header blank_context_patch);
    vm_compute; reflexivity.
Defined.

(** The count invariant holds after the repair of an ASCII text on which
    the repair returns and none of whose lines is a single space. *)
Theorem repair_restores_counts (d : string) :
  is_ascii d = true ->
  within_limit (normalised_lines d) = true ->
  no_blank_context (normalised_lines d) ->
  exists out, repair_patch d = Ok out /\ count_invariant out = true.
Proof.
  intros _ Hlim Hnb. exists (repaired_patch d). split.
  - now rewrite repair_patch_value, Hlim.
  - now apply repaired_patch_counts.
Qed.

Lemma repair_restores_counts_witness :
  count_invariant two_hunk_crlf_patch = false
  /\ exists out,
       repair_patch two_hunk_crlf_patch = Ok out
       /\ count_invariant out = true.
Proof.
  split; [vm_compute; reflexivity|].
  apply (@repair_restores_counts two_hunk_crlf_patch).
  - vm_compute; reflexivity.
  - vm_compute; reflexivity.
  - rewrite clean_patch_lines; repeat constructor.
Defined.

(** The repair of an ASCII text on which it returns, with no CR directly
    before a CRLF and no CR at its end, has no CRLF left. *)
Theorem repair_patch_removes_crlf (d : string) :
  is_ascii d = true ->
  within_limit (normalised_lines d) = true ->
  contains (cr ++ crlf) d = false -> ends_with_cr d = false ->
  exists out, repair_patch d = Ok out /\ contains crlf out = false.
Proof.
  intros _ Hlim Hd He. exists (repaired_patch d). split.
  - now rewrite repair_patch_value, Hlim.
  - now apply repaired_patch_without_crlf.
Qed.

Lemma repair_patch_removes_crlf_witness :
  contains crlf two_hunk_crlf_patch = true
  /\ exists out,
       repair_patch two_hunk_crlf_patch = Ok out
       /\ contains crlf out = false.
Proof.
  split; [vm_compute; reflexivity|].
  apply (@repair_patch_removes_crlf two_hunk_crlf_patch);
    vm_compute; reflexivity.
Defined.

(** The three things that stand in the way of idempotence: a line that
    is a single space, a CR before a CRLF, a CR at the end.  On an ASCII
    text without them on which the repair returns, the repair of the
    result returns the result. *)
Theorem repair_patch_idempotent_on_clean_text (d : string) :
  is_ascii d = true ->
  within_limit (normalised_lines d) = true ->
  no_blank_context (normalised_lines d) ->
  contains (cr ++ crlf) d = false -> ends_with_cr d = false ->
  exists out, repair_patch d = Ok out /\ repair_patch out = Ok out.
Proof.
  intros _ Hlim Hnb Hd He. exists (repaired_patch d).
  assert (Hcr : contains crlf (repaired_patch d) = false)
    by now apply repaired_patch_without_crlf.
  split.
  - now rewrite repair_patch_value, Hlim.
  - rewrite repair_patch_value, (@normalised_lines_repaired d Hcr).
    rewrite (@repaired_lines_within_limit
               (List.length (normalised_lines d)) _ (le_n _) Hlim).
    now rewrite repaired_patch_idempotent_on_clean_text.
Qed.

Lemma repair_patch_idempotent_on_clean_text_witness :
  exists out,
    repair_patch two_hunk_crlf_patch = Ok out
    /\ out <> two_hunk_crlf_patch
    /\ repair_patch out = Ok out.
Proof.
  destruct (@repair_patch_idempotent_on_clean_text two_hunk_crlf_patch)
    as (out & E1 & E2).
  - vm_compute; reflexivity.
  - vm_compute; reflexivity.
  - rewrite clean_patch_lines; repeat constructor.
  - vm_compute; reflexivity.
  - vm_compute; reflexivity.
  - exists out. split; [exact E1|]. split; [|exact E2].
    intros ->. vm_compute in E1. discriminate E1.
Defined.

End RepairSpec.

(** * More on the repository manager *)

Module RepositoryManagerMore.
Import PyStr RepositoryManager GitAssumptions GitScenario LogShape.
Import RepositoryManagerSpec ScenarioSpec PatchValidatorSpec.
Local Open Scope string_scope.

(** ** The slot of a pair *)

Lemma replace_slash_no_slash (s : string) :
  contains "/" (replace_slash s) = false.
Proof.
  induction s as [|c s IH]; [reflexivity|].
  cbn [replace_slash contains]. rewrite IH, orb_false_r.
  cbn [String.prefix].
  destruct (Ascii.eqb_spec c "/") as [->|Hc].
  - reflexivity.
  - destruct (ascii_dec "/" c); [congruence | reflexivity].
Qed.

Lemma replace_slash_not_absolute (s : string) :
  startswith (replace_slash s) "/" = false.
Proof.
  pose proof (replace_slash_no_slash s) as H.
  unfold startswith. destruct (replace_slash s); [reflexivity|].
  cbn [contains] in H. now apply orb_false_iff in H.
Qed.

Lemma replace_slash_idempotent (s : string) :
  replace_slash (replace_slash s) = replace_slash s.
Proof.
  induction s as [|c s IH]; [reflexivity|].
  cbn [replace_slash]. rewrite IH. f_equal.
  destruct (Ascii.eqb_spec c "/") as [->|Hc]; [reflexivity|].
  destruct (Ascii.eqb_spec c "/"); [contradiction | reflexivity].
Qed.

Lemma first8_startswith (c : string) :
  startswith (first8 c) "/" = startswith c "/".
Proof.
  unfold startswith, first8. destruct c as [|a c]; [reflexivity|].
  cbn [substring String.prefix].
  destruct (ascii_dec "/" a); [|reflexivity].
  destruct c; reflexivity.
Qed.

Lemma join_step_relative (path b : string) :
  startswith b "/" = false -> exists tail, join_step path b = path ++ tail.
Proof.
  intros H. unfold join_step. rewrite H.
  destruct (PatchValidator.is_empty path || endswith path "/"); eauto.
Qed.

(** The repository name is sanitised and the commit is not.  With a
    commit that does not begin with [/] the slot lies below the cache
    directory: the path begins with [cache_dir], and the component the
    repository name adds has no [/] in it. *)
Theorem repo_path_below_cache_dir (cache_dir repo base_commit : string) :
  startswith base_commit "/" = false ->
  contains "/" (replace_slash repo) = false
  /\ exists tail, repo_path cache_dir repo base_commit = cache_dir ++ tail.
Proof.
  intros H. split; [apply replace_slash_no_slash|].
  unfold repo_path, path_join. cbn [fold_left].
  destruct (@join_step_relative cache_dir (replace_slash repo)
              (replace_slash_not_absolute repo)) as [t1 ->].
  rewrite <- first8_startswith in H.
  destruct (@join_step_relative (cache_dir ++ t1) (first8 base_commit) H)
    as [t2 ->].
  exists (t1 ++ t2). now rewrite append_assoc.
Qed.

Lemma repo_path_below_cache_dir_witness :
  startswith remote_commit "/" = false
  /\ contains "/" (replace_slash "octocat/Hello-World") = false
  /\ exists tail,
       repo_path "/cache" "octocat/Hello-World" remote_commit
       = "/cache" ++ tail.
Proof.
  split; [reflexivity|].
  apply (@repo_path_below_cache_dir "/cache" "octocat/Hello-World"
           remote_commit).
  reflexivity.
Defined.

(** A commit that begins with [/] is taken by [os.path.join] as an
    absolute path: the slot is the first eight characters of the commit,
    whatever the cache directory and the repository are. *)
Theorem repo_path_of_absolute_commit (cache_dir repo base_commit : string) :
  startswith base_commit "/" = true ->
  repo_path cache_dir repo base_commit = first8 base_commit.
Proof.
  intros H. unfold repo_path, path_join. cbn [fold_left].
  rewrite <- first8_startswith in H.
  unfold join_step at 1. now rewrite H.
Qed.

Lemma repo_path_of_absolute_commit_witness :
  startswith "/srv/data/x" "/" = true
  /\ repo_path "/cache" "octocat/Hello-World" "/srv/data/x" = "/srv/dat".
Proof.
  split; [reflexivity|].
  apply (@repo_path_of_absolute_commit "/cache" "octocat/Hello-World"
           "/srv/data/x").
  reflexivity.
Defined.

(** Two repository names that are equal once sanitised, with commits
    that agree on their first eight characters, have one slot: once a call
    for the first pair has returned, a call for the second pair returns
    the clone of the first repository and runs no command. *)
Theorem get_repo_sanitised_names_share_slot (cache_dir r1 r2 c1 c2 : string)
    (os : OS) (w w1 : World os) (l1 : list event) (q : string) :
  clone_creates_slot os -> commands_keep_cwd os ->
  replace_slash r1 = replace_slash r2 -> first8 c1 = first8 c2 ->
  get_repo os cache_dir r1 c1 w = (w1, l1, Return q) ->
  repo_path cache_dir r2 c2 = q
  /\ get_repo os cache_dir r2 c2 w1 = (w1, [], Return q).
Proof.
  intros Hclone Hkeep Hr Hc H.
  destruct (@get_repo_returns os cache_dir r1 c1 w w1 l1 q Hclone Hkeep H)
    as (-> & Hex & _).
  assert (Hp : repo_path cache_dir r2 c2 = repo_path cache_dir r1 c1)
    by (unfold repo_path; now rewrite Hr, Hc).
  split; [exact Hp|].
  rewrite <- Hp in *. now apply get_repo_cache_hit.
Qed.

Lemma get_repo_sanitised_names_share_slot_witness :
  clone_creates_slot scenario
  /\ commands_keep_cwd scenario
  /\ replace_slash "octocat/Hello-World" = replace_slash "octocat_Hello-World"
  /\ first8 remote_commit = first8 lookalike_commit
  /\ get_repo scenario "/cache" "octocat/Hello-World" remote_commit fresh
     = (cloned, clone_log, Return slot)
  /\ repo_path "/cache" "octocat_Hello-World" lookalike_commit = slot
  /\ get_repo scenario "/cache" "octocat_Hello-World" lookalike_commit cloned
     = (cloned, [], Return slot).
Proof.
  split; [exact scenario_clone_creates|].
  split; [exact scenario_keeps_cwd|].
  split; [reflexivity|]. split; [reflexivity|].
  split; [vm_compute; reflexivity|].
  apply (@get_repo_sanitised_names_share_slot "/cache"
           "octocat/Hello-World" "octocat_Hello-World"
           remote_commit lookalike_commit scenario fresh cloned clone_log slot
           scenario_clone_creates scenario_keeps_cwd);
    vm_compute; reflexivity.
Defined.

(** ** The commands of one call *)

(** Exit codes in a goal about the shape of a log. *)
Ltac shape_codes :=
  unfold count_commands, exited_ok; simpl;
  repeat match goal with
         | E : Z.eqb ?rc 0 = false |- context [Z.eqb ?rc 0] =>
             rewrite E; simpl
         end.

(** The retries of [get_repo] are bounded, and it clones before anything
    else: a call runs at most two clones, two checkouts and one fetch,
    five commands in all, and no checkout or fetch before a clone has
    exited with 0. *)
Theorem get_repo_bounded_retries (os : OS)
    (cache_dir repo base_commit : string) (w w' : World os)
    (l : list event) (r : outcome string) :
  get_repo os cache_dir repo base_commit w = (w', l, r) ->
  count_commands is_git_clone l <= 2
  /\ count_commands is_git_checkout l <= 2
  /\ count_commands is_git_fetch l <= 1
  /\ List.length l <= 5
  /\ clone_first false l = true.
Proof.
  intros H.
  unfold get_repo, clone_phase, checkout_phase, bind, try_except,
    subprocess_run, completed, os_path_exists, os_makedirs, ret in H.
  simpl in H.
  run_all; norm_codes; repeat split; shape_codes; try lia; reflexivity.
Qed.

Lemma get_repo_bounded_retries_witness :
  get_repo scenario "/cache" "octocat/Hello-World" missing_commit fresh
  = (stale, failed_log,
     Raise (CalledProcessError ["git"; "checkout"; missing_commit] 1
              "error: pathspec did not match"))
  /\ count_commands is_git_clone failed_log <= 2
  /\ count_commands is_git_checkout failed_log <= 2
  /\ count_commands is_git_fetch failed_log <= 1
  /\ List.length failed_log <= 5
  /\ clone_first false failed_log = true.
Proof.
  split; [vm_compute; reflexivity|].
  apply (@get_repo_bounded_retries scenario "/cache" "octocat/Hello-World"
           missing_commit fresh stale failed_log
           (Raise (CalledProcessError ["git"; "checkout"; missing_commit] 1
                     "error: pathspec did not match"))).
  vm_compute; reflexivity.
Defined.

Lemma surjective_pairing_triple (A B C : Type) (t : A * B * C) :
  t = (fst (fst t), snd (fst t), snd t).
Proof. destruct t as [[a b] c]. reflexivity. Qed.

(** ** [apply_patch], beyond its failures *)

(** What [apply_patch] raises is never the [CalledProcessError] of
    [git]. *)
Lemma apply_patch_raises (os : OS) (repo_path patch : string)
    (w w' : World os) (l : list event) (e : exn) :
  apply_patch os repo_path patch w = (w', l, Raise e) ->
  e = OSError \/ e = UnicodeEncodeError \/ e = UnicodeDecodeError
  \/ exists cmd, e = TimeoutExpired cmd.
Proof.
  intros H.
  unfold apply_patch, bind, write_temporary_file, try_finally, try_except,
    subprocess_run, completed, decode_stderr, text_of, os_path_exists,
    os_remove, ret, raise in H.
  simpl in H. run_all; eauto 6.
Qed.

(** A result with [success = false] always carries a text. *)
Lemma apply_patch_failure_has_error (os : OS) (repo_path patch : string)
    (w w' : World os) (l : list event) (r : apply_result) :
  apply_patch os repo_path patch w = (w', l, Return r) ->
  success r = false -> exists msg, error r = Some msg.
Proof.
  intros H Hs.
  unfold apply_patch, bind, write_temporary_file, try_finally, try_except,
    subprocess_run, completed, decode_stderr, text_of, os_path_exists,
    os_remove, ret, raise in H.
  simpl in H. run_all; simpl in *; try discriminate; eauto.
Qed.

(** [apply_patch] never applies a patch it has not checked.  Its log is
    empty, when the patch file could not be made or written; or it is the
    dry run alone, which did not exit with 0 or whose output text mode
    could not decode; or it is the dry run that exited with 0 followed by
    [git apply] on the same file.  It returns [success = true] only in
    the last case, and then exactly when [git apply] exited with 0. *)
Theorem apply_patch_checks_before_applying (os : OS)
    (repo_path patch : string) (w w' : World os) (l : list event)
    (r : outcome apply_result) :
  let dry_run f := {| argv := ["git"; "apply"; "--check"; f];
                      cwd := Some repo_path; timeout := None |} in
  let application f := {| argv := ["git"; "apply"; f];
                          cwd := Some repo_path; timeout := None |} in
  apply_patch os repo_path patch w = (w', l, r) ->
  (l = [] /\ (r = Raise OSError \/ r = Raise UnicodeEncodeError))
  \/ (exists f c,
        l = [(dry_run f, c)]
        /\ (exited_ok c = true ->
            r = Raise UnicodeDecodeError \/ r = Raise OSError)
        /\ forall r0, r = Return r0 -> success r0 = false)
  \/ (exists f out err c,
        l = [(dry_run f, Exited 0 out err); (application f, c)]
        /\ forall r0, r = Return r0 -> success r0 = exited_ok c).
Proof.
  cbv zeta. intros H.
  unfold apply_patch, bind, write_temporary_file, try_finally, try_except,
    subprocess_run, completed, decode_stderr, text_of, os_path_exists,
    os_remove, ret, raise in H.
  simpl in H.
  run_all; simpl in *; norm_codes;
    first
      [ left; split;
        [reflexivity | first [left; reflexivity | right; reflexivity]]
      | right; left; do 2 eexists; split; [reflexivity|]; split;
        [ intros Hok; simpl in Hok;
          first [congruence | left; reflexivity | right; reflexivity]
        | intros r0 E; first [discriminate E | inversion E; reflexivity] ]
      | right; right; do 4 eexists; split; [reflexivity|];
        intros r0 E;
        first [discriminate E | inversion E; shape_codes; reflexivity] ].
Qed.

Lemma apply_patch_checks_before_applying_witness :
  apply_patch scenario slot "diff --git a/f b/f" cloned
  = ({| dirs := dirs cloned; files := [];
        applied := ["diff --git a/f b/f"] |},
     [(git_apply_check "/tmp/tmp0.patch" slot, Exited 0 "" "");
      (git_apply "/tmp/tmp0.patch" slot, Exited 0 "" "")],
     Return {| success := true; error := None |})
  /\ exists f out err c,
       [(git_apply_check "/tmp/tmp0.patch" slot, Exited 0 "" "");
        (git_apply "/tmp/tmp0.patch" slot, Exited 0 "" "")]
       = [(git_apply_check f slot, Exited 0 out err); (git_apply f slot, c)]
       /\ forall r0,
            Return {| success := true; error := None |} = Return r0 ->
            success r0 = exited_ok c.
Proof.
  assert (E : apply_patch scenario slot "diff --git a/f b/f" cloned
    = ({| dirs := dirs cloned; files := [];
          applied := ["diff --git a/f b/f"] |},
       [(git_apply_check "/tmp/tmp0.patch" slot, Exited 0 "" "");
        (git_apply "/tmp/tmp0.patch" slot, Exited 0 "" "")],
       Return {| success := true; error := None |}))
    by (vm_compute; reflexivity).
  split; [exact E|].
  destruct (@apply_patch_checks_before_applying scenario slot
              "diff --git a/f b/f" cloned _ _ _ E)
    as [[Hl _]|[(f & c & Hl & _)|Hshape]];
    [discriminate Hl | discriminate Hl | exact Hshape].
Defined.

(** A patch file that was written does not outlive the call: however
    [apply_patch] ends after it has written the file, the file is gone,
    unless removing it is what failed. *)
Theorem apply_patch_removes_patch_file (os : OS) (repo_path patch : string)
    (w w0 w1 w' : World os) (f : string) (l : list event)
    (r : outcome apply_result) :
  remove_deletes os ->
  named_temporary_file os w ".patch" = Some (w0, f) ->
  write_text os w0 f patch = (w1, Written) ->
  apply_patch os repo_path patch w = (w', l, r) ->
  path_exists os w' f = false \/ r = Raise OSError.
Proof.
  intros Hdel Htmp Hwr H.
  unfold apply_patch, bind, write_temporary_file in H.
  rewrite Htmp, Hwr in H.
  unfold try_finally, try_except, bind, subprocess_run, completed,
    decode_stderr, text_of, os_path_exists, os_remove, ret, raise in H.
  simpl in H.
  run_all;
    first [ right; reflexivity
          | left; assumption
          | left; eapply Hdel; eassumption ].
Qed.

Lemma tidy_remove_deletes : remove_deletes GitFaults.tidy.
Proof.
  intros w w' f H. simpl in *. unfold GitFaults.tidy_remove in H.
  destruct (lookup f (files w)); [|discriminate].
  inversion H; subst; clear H. unfold scenario_exists; simpl.
  apply orb_false_iff. split.
  - destruct (existsb _ _) eqn:E; [|reflexivity].
    apply existsb_exists in E. destruct E as (d & Hd & Ed).
    apply filter_In in Hd. destruct Hd as [_ Hd]. now rewrite Ed in Hd.
  - destruct (existsb _ _) eqn:E; [|reflexivity].
    apply existsb_exists in E. destruct E as (d & Hd & Ed).
    apply filter_In in Hd. destruct Hd as [_ Hd]. now rewrite Ed in Hd.
Qed.

Lemma apply_patch_removes_patch_file_witness :
  remove_deletes GitFaults.tidy
  /\ named_temporary_file GitFaults.tidy cloned ".patch"
     = Some ({| dirs := dirs cloned; files := [("/tmp/tmp0.patch", "")];
                applied := [] |}, "/tmp/tmp0.patch")
  /\ path_exists GitFaults.tidy
       (fst (fst (apply_patch GitFaults.tidy slot "garbage" cloned)))
       "/tmp/tmp0.patch" = false.
Proof.
  split; [exact tidy_remove_deletes|]. split; [reflexivity|].
  destruct (@apply_patch_removes_patch_file GitFaults.tidy slot "garbage"
              cloned _ _ _ "/tmp/tmp0.patch" _ _
              tidy_remove_deletes eq_refl eq_refl
              (surjective_pairing_triple
                 (apply_patch GitFaults.tidy slot "garbage" cloned)))
    as [H|H]; [exact H | vm_compute in H; discriminate H].
Defined.

(** A patch file that could not be written is left behind.  The file is
    made and written before the [try] block is entered: when the write
    fails, [apply_patch] raises the error of the write,
    [UnicodeEncodeError] or [OSError], in the world the write left; no
    command has run and nothing is removed. *)
Theorem apply_patch_leaves_unwritten_file (os : OS)
    (repo_path patch : string) (w w0 w1 : World os) (f : string)
    (wr : written) :
  named_temporary_file os w ".patch" = Some (w0, f) ->
  write_text os w0 f patch = (w1, wr) ->
  wr <> Written ->
  exists e,
    apply_patch os repo_path patch w = (w1, [], Raise e)
    /\ (e = UnicodeEncodeError \/ e = OSError).
Proof.
  intros Htmp Hwr Hne.
  unfold apply_patch, bind, write_temporary_file. rewrite Htmp, Hwr.
  destruct wr; [contradiction | eauto | eauto].
Qed.

Lemma apply_patch_leaves_unwritten_file_witness :
  let left_behind := {| dirs := dirs cloned;
                        files := [("/tmp/tmp0.patch", "")];
                        applied := [] |} in
  DiffModel.is_ascii GitFaults.accent_patch = false
  /\ path_exists GitFaults.ascii_locale cloned "/tmp/tmp0.patch" = false
  /\ path_exists GitFaults.ascii_locale left_behind "/tmp/tmp0.patch" = true
  /\ exists e,
       apply_patch GitFaults.ascii_locale slot GitFaults.accent_patch cloned
       = (left_behind, [], Raise e)
       /\ (e = UnicodeEncodeError \/ e = OSError).
Proof.
  intros left_behind.
  split; [vm_compute; reflexivity|]. split; [reflexivity|].
  split; [reflexivity|].
  apply (@apply_patch_leaves_unwritten_file GitFaults.ascii_locale slot
           GitFaults.accent_patch cloned left_behind left_behind
           "/tmp/tmp0.patch" EncodeFailed).
  - reflexivity.
  - vm_compute; reflexivity.
  - discriminate.
Defined.

End RepositoryManagerMore.

(** * Properties of the validation loop *)

Module ValidatePatchesSpec.
Import PyStr PatchValidator RepairValue PatchErrors RepositoryManager GitAssumptions.
Import GitScenario GitFaults LogShape ValidatePatches.
Import RepositoryManagerSpec RepositoryManagerMore PatchErrorsSpec.
Local Open Scope string_scope.

Section Loop.
Variable os : OS.
Variable cache_dir : string.
Variable task_metadata : string -> option task_meta.

Lemma try_apply_abort (repo_path patch : string) (w w' : World os)
    (l : list event) (e : loop_exn) :
  try_apply os repo_path patch w = (w', l, Abort e) -> environment_error e.
Proof.
  unfold try_apply. intros H.
  destruct (is_empty patch || (py_len patch <? 10)%nat); [discriminate|].
  destruct (apply_patch os repo_path patch w) as [[w1 l1] [r|e1]] eqn:E.
  - destruct (success r) eqn:Es; [discriminate|].
    destruct (@apply_patch_failure_has_error os repo_path patch w w1 l1 r E Es)
      as [msg Hmsg].
    rewrite Hmsg in H. discriminate.
  - inversion H; subst.
    destruct (@apply_patch_raises os repo_path patch w w' l e1 E)
      as [->|[->|[->|[cmd ->]]]]; unfold environment_error; eauto 6.
Qed.

(** The body of the loop stops the run on a patch that is [None], once
    the repository is there, and on an error of the environment. *)
Lemma validate_one_abort (pred : prediction) (w w' : World os)
    (l : list event) (e : loop_exn) :
  validate_one os cache_dir task_metadata pred w = (w', l, Abort e) ->
  (e = AttributeError /\ model_patch pred = None
   /\ has_metadata task_metadata pred = true)
  \/ environment_error e.
Proof.
  unfold validate_one, has_metadata. intros H.
  destruct (task_metadata (instance_id pred)) as [meta|]; [|discriminate].
  destruct (get_repo os cache_dir (repo meta) (base_commit meta) w)
    as [[w1 l1] [p|e1]]; [|discriminate].
  destruct (model_patch pred) as [patch|].
  - destruct (try_apply os p patch w1) as [[w2 l2] [[t m]|e2]] eqn:E.
    + destruct (reset_repo os p w2) as [[w3 l3] r]. discriminate.
    + inversion H; subst. right. eapply try_apply_abort; eassumption.
  - inversion H; subst. left. auto.
Qed.




Lemma validate_one_appends (pred : prediction) (w w' : World os)
    (l : list event) (appended : option result_row) :
  validate_one os cache_dir task_metadata pred w = (w', l, Next appended) ->
  match task_metadata (instance_id pred) with
  | None => appended = None
  | Some meta =>
      exists row, appended = Some row
                  /\ row_instance_id row = instance_id pred
                  /\ row_repo row = repo meta
  end.
Proof.
  unfold validate_one. intros H.
  destruct (task_metadata (instance_id pred)) as [meta|];
    [|now inversion H].
  destruct (get_repo os cache_dir (repo meta) (base_commit meta) w)
    as [[w1 l1] [p|e1]].
  - destruct (model_patch pred) as [patch|]; [|discriminate].
    destruct (try_apply os p patch w1)
      as [[w2 l2] [[t m]|e2]]; [|discriminate].
    destruct (reset_repo os p w2) as [[w3 l3] r].
    inversion H; subst. eexists; repeat split.
  - inversion H; subst. eexists; repeat split.
Qed.

End Loop.

(** A failure of [git] never ends the run.  With a standard output that
    accepts what the loop prints: when the loop stops before
    the last prediction, what was raised is the [AttributeError] of a
    prediction with metadata whose patch is [None], or an error of the
    environment that came out of [apply_patch]: an [OSError], a
    [UnicodeEncodeError], a [UnicodeDecodeError] or a [TimeoutExpired].
    It is never the [CalledProcessError] of a command that exited with an
    error, and never the [TypeError] of slicing a missing error text. *)
Theorem validate_loop_git_failure_never_aborts (os : OS) (cache_dir : string)
    (task_metadata : string -> option task_meta)
    (predictions : list prediction) (results : list result_row)
    (w w' : World os) (l : list event) (e : loop_exn) :
  validate_loop os cache_dir task_metadata predictions results w
  = (w', l, Abort e) ->
  ((e = AttributeError
    /\ exists pred, In pred predictions /\ model_patch pred = None
                    /\ has_metadata task_metadata pred = true)
   \/ e = FromManager OSError \/ e = FromManager UnicodeEncodeError
   \/ e = FromManager UnicodeDecodeError
   \/ exists cmd, e = FromManager (TimeoutExpired cmd))
  /\ e <> TypeError
  /\ forall cmd rc err, e <> FromManager (CalledProcessError cmd rc err).
Proof.
  intros H.
  assert (Hone : (e = AttributeError
                  /\ exists pred, In pred predictions
                                  /\ model_patch pred = None
                                  /\ has_metadata task_metadata pred = true)
                 \/ environment_error e).
  { revert results w w' l H.
    induction predictions as [|pred rest IH]; intros results w w' l H;
      simpl in H; [discriminate|].
    destruct (validate_one os cache_dir task_metadata pred w)
      as [[w1 l1] [appended|e1]] eqn:E1.
    - destruct (validate_loop os cache_dir task_metadata rest _ w1)
        as [[w2 l2] r] eqn:E2.
      inversion H; subst.
      destruct (IH _ _ _ _ E2) as [[He (p & Hin & Hp)]|Henv];
        [left; split; [exact He|]; exists p; split; [now right | exact Hp]
        | now right].
    - inversion H; subst.
      destruct (@validate_one_abort os cache_dir task_metadata pred w w' l e E1)
        as [(He & Hnone & Hmeta)|Henv]; [|now right].
      left. split; [exact He|]. exists pred. split; [now left | auto]. }
  split.
  - destruct Hone as [Hattr|[->|[->|[->|[cmd ->]]]]]; eauto 7.
  - destruct Hone as [[-> _]|[->|[->|[->|[cmd ->]]]]];
      split; intros; discriminate.
Qed.

Lemma validate_loop_git_failure_never_aborts_witness :
  let predictions := [short_prediction; null_prediction; good_prediction] in
  let run := validate_loop scenario "/cache" hello_meta predictions []
               cloned in
  snd run = Abort AttributeError
  /\ map fst (snd (fst run)) = [git_reset_hard slot; git_clean slot]
  /\ ((AttributeError = AttributeError
       /\ exists pred, In pred predictions /\ model_patch pred = None
                       /\ has_metadata hello_meta pred = true)
      \/ AttributeError = FromManager OSError
      \/ AttributeError = FromManager UnicodeEncodeError
      \/ AttributeError = FromManager UnicodeDecodeError
      \/ exists cmd, AttributeError = FromManager (TimeoutExpired cmd))
  /\ AttributeError <> TypeError
  /\ forall cmd rc err,
       AttributeError <> FromManager (CalledProcessError cmd rc err).
Proof.
  intros predictions run.
  assert (E : snd run = Abort AttributeError) by (vm_compute; reflexivity).
  split; [exact E|]. split; [vm_compute; reflexivity|].
  apply (@validate_loop_git_failure_never_aborts scenario "/cache" hello_meta
           predictions [] cloned (fst (fst run)) (snd (fst run))).
  rewrite <- E. apply surjective_pairing_triple.
Defined.

(** The rows follow the predictions.  A run that reaches the end has kept
    the rows it started with and added one row for each prediction that has
    metadata, in the order of the predictions and under its instance id;
    the predictions without metadata leave no row. *)
Theorem validate_loop_rows_in_order (os : OS) (cache_dir : string)
    (task_metadata : string -> option task_meta)
    (predictions : list prediction) (results rows : list result_row)
    (w w' : World os) (l : list event) :
  validate_loop os cache_dir task_metadata predictions results w
  = (w', l, Next rows) ->
  exists added,
    rows = (results ++ added)%list
    /\ map row_instance_id added
       = map instance_id (filter (has_metadata task_metadata) predictions).
Proof.
  revert results rows w w' l.
  induction predictions as [|pred rest IH]; intros results rows w w' l H;
    simpl in H.
  - inversion H; subst. exists []. split; [now rewrite app_nil_r|reflexivity].
  - destruct (validate_one os cache_dir task_metadata pred w)
      as [[w1 l1] [appended|e1]] eqn:E1; [|discriminate].
    destruct (validate_loop os cache_dir task_metadata rest _ w1)
      as [[w2 l2] r] eqn:E2.
    inversion H; subst.
    destruct (IH _ _ _ _ _ E2) as [added [Hrows Hids]].
    pose proof (@validate_one_appends os cache_dir task_metadata pred w w1 l1
                  appended E1) as Hone.
    simpl. unfold has_metadata at 1.
    destruct (task_metadata (instance_id pred)) as [meta|].
    + destruct Hone as [row [-> [Hid _]]].
      exists (row :: added). split.
      * rewrite Hrows, <- app_assoc. reflexivity.
      * simpl. now rewrite Hid, Hids.
    + subst appended. exists added. split; assumption.
Qed.

Lemma validate_loop_rows_in_order_witness :
  let predictions :=
    [stray_prediction; short_prediction; stray_prediction; good_prediction] in
  let run := validate_loop scenario "/cache" hello_meta predictions [] fresh in
  exists rows,
    snd run = Next rows
    /\ map validation_result rows = ["empty_patch"; "success"]
    /\ exists added,
         rows = ([] ++ added)%list
         /\ map row_instance_id added
            = map instance_id (filter (has_metadata hello_meta) predictions).
Proof.
  intros predictions run.
  destruct (snd run) as [rows|e] eqn:E; [|vm_compute in E; discriminate E].
  exists rows. split; [reflexivity|].
  split; [vm_compute in E; inversion E; reflexivity|].
  apply (@validate_loop_rows_in_order scenario "/cache" hello_meta
           predictions [] rows fresh (fst (fst run)) (snd (fst run))).
  rewrite <- E. apply surjective_pairing_triple.
Defined.



(** What [success] in a row means.  In a row that has a
    [patch_valid_format], the result is [success] exactly when the error is
    [None] or the empty text: a patch that [git apply --check] refused
    without writing to its standard error is recorded as a success. *)
Theorem validate_one_success_label (os : OS) (cache_dir : string)
    (task_metadata : string -> option task_meta) (pred : prediction)
    (w w' : World os) (l : list event) (row : result_row) :
  validate_one os cache_dir task_metadata pred w = (w', l, Next (Some row)) ->
  patch_valid_format row <> None ->
  (validation_result row = "success"
   <-> row_error row = NoError \/ row_error row = ErrorText "").
Proof.
  unfold validate_one. intros H Hformat.
  destruct (task_metadata (instance_id pred)) as [meta|]; [|discriminate].
  destruct (get_repo os cache_dir (repo meta) (base_commit meta) w)
    as [[w1 l1] [p|e1]].
  2: { inversion H; subst. now contradiction Hformat. }
  destruct (model_patch pred) as [patch|]; [|discriminate].
  destruct (try_apply os p patch w1)
    as [[w2 l2] [[t m]|e2]] eqn:E; [|discriminate].
  destruct (reset_repo os p w2) as [[w3 l3] r3].
  inversion H; subst. simpl. clear H Hformat.
  unfold try_apply in E.
  destruct (is_empty patch || (py_len patch <? 10)%nat).
  { inversion E; subst. split; [discriminate|].
    intros [Hn|Hn]; discriminate Hn. }
  destruct (apply_patch os p patch w1) as [[wa la] [ra|ea]];
    [|discriminate].
  destruct (success ra).
  { inversion E; subst. split; [now left|reflexivity]. }
  destruct (error ra) as [msg|]; [|discriminate].
  inversion E; subst. unfold classify_patch_error_value.
  rewrite classify_success_is_empty. split.
  - intros ->. now right.
  - intros [Hn|Hn]; [discriminate Hn|now inversion Hn].
Qed.

Lemma validate_one_success_label_witness :
  let refused := {| row_instance_id := "hello-1";
                    row_repo := "octocat/Hello-World";
                    validation_result := "success";
                    patch_valid_format := Some false;
                    patch_length := Some 18;
                    row_error := ErrorText "" |} in
  let log := [(git_apply_check "/tmp/tmp0.patch" slot, Exited 1 "" "");
              (git_reset_hard slot,
               Exited 128 "" "fatal: not a git repository")] in
  validate_one quiet_git "/cache" hello_meta bad_prediction cloned
  = (cloned, log, Next (Some refused))
  /\ (validation_result refused = "success"
      <-> row_error refused = NoError \/ row_error refused = ErrorText "").
Proof.
  intros refused log.
  assert (E : validate_one quiet_git "/cache" hello_meta bad_prediction cloned
              = (cloned, log, Next (Some refused)))
    by (vm_compute; reflexivity).
  split; [exact E|].
  apply (@validate_one_success_label quiet_git "/cache" hello_meta
           bad_prediction cloned cloned log refused E).
  discriminate.
Defined.

End ValidatePatchesSpec.
